(** * Android build-file tooling of cross: makefile and blueprint parsers

    A shallow embedding of [docker/android/android/util.py],
    [docker/android/android/make.py] and [docker/android/android/soong.py],
    followed by the properties established about them.

    Python [str] values are modelled as lists of characters ([list ascii]),
    read as code points below 256.  Functions that may raise return a
    [result]. *)

From Stdlib Require Import Ascii String.
From Stdlib Require Import DecimalString DecimalN.
From Stdlib Require Import List Bool Arith PeanoNat Lia ZArith NArith.
Import ListNotations.

Local Open Scope list_scope.
Local Open Scope nat_scope.

(** ** Python string primitives *)

Module Py.

Definition str := list ascii.

(** A literal, written as a Rocq string. *)
Definition lit (s : string) : str := list_ascii_of_string s.

Definition LF : ascii := ascii_of_nat 10.
Definition CR : ascii := ascii_of_nat 13.
Definition TAB : ascii := ascii_of_nat 9.
Definition FF : ascii := ascii_of_nat 12.
Definition DQUOTE : ascii := ascii_of_nat 34.

Definition code (c : ascii) : nat := nat_of_ascii c.

Definition in_range (lo hi : nat) (c : ascii) : bool :=
  (lo <=? code c) && (code c <=? hi).

Definition str_eqb (a b : str) : bool :=
  if list_eq_dec ascii_dec a b then true else false.

(** [str.lower] on code points below 256: [A-Z] and the Latin-1 capitals
    (0xC0..0xDE without the multiplication sign 0xD7) move up by 32. *)
Definition lower_char (c : ascii) : ascii :=
  if in_range 65 90 c then ascii_of_nat (code c + 32)
  else if in_range 192 222 c && negb (code c =? 215)
       then ascii_of_nat (code c + 32)
  else c.

Definition lower (s : str) : str := map lower_char s.

(** [s.startswith(p)] *)
Fixpoint startswith (p s : str) : bool :=
  match p, s with
  | [], _ => true
  | a :: p', b :: s' => Ascii.eqb a b && startswith p' s'
  | _ :: _, [] => false
  end.

(** [p in s] for strings *)
Fixpoint contains (p s : str) : bool :=
  startswith p s ||
  match s with
  | [] => false
  | _ :: s' => contains p s'
  end.

(** The characters [str.isspace] accepts, below 256. *)
Definition isspace (c : ascii) : bool :=
  in_range 9 13 c || in_range 28 32 c || (code c =? 133) || (code c =? 160).

(** [s.lstrip()] *)
Fixpoint lstrip (s : str) : str :=
  match s with
  | c :: s' => if isspace c then lstrip s' else s
  | [] => []
  end.

(** [sep.join(parts)] *)
Fixpoint join (sep : str) (parts : list str) : str :=
  match parts with
  | [] => []
  | [p] => p
  | p :: rest => p ++ sep ++ join sep rest
  end.

(** [s[a:b]] for [0 <= a], [0 <= b] *)
Definition slice (a b : nat) (s : str) : str := firstn (b - a) (skipn a s).

(** The line boundaries of [str.splitlines], below 256. *)
Definition is_linebreak (c : ascii) : bool :=
  in_range 10 13 c || in_range 28 30 c || (code c =? 133).

(** [s.splitlines()]: [cur] holds the current line in reverse. *)
Fixpoint splitlines_aux (cur : str) (s : str) : list str :=
  match s with
  | [] => match cur with [] => [] | _ => [rev cur] end
  | c :: s' =>
      if is_linebreak c then
        match s' with
        | d :: s'' =>
            if Ascii.eqb c CR && Ascii.eqb d LF
            then rev cur :: splitlines_aux [] s''
            else rev cur :: splitlines_aux [] s'
        | [] => rev cur :: splitlines_aux [] s'
        end
      else splitlines_aux (c :: cur) s'
  end.

Definition splitlines (s : str) : list str := splitlines_aux [] s.

End Py.

(** ** Regular expressions

    [re2] is used through [re.search], [re.finditer] and [re.sub].  The
    patterns of this repository are written below as syntax trees and run
    by a backtracking matcher, which returns the match the leftmost-first
    rule selects (earlier alternatives first, greedy repetition trying one
    more round before stopping). *)

Module Re.
Import Py.

Inductive re : Type :=
| Eps
| Chr (p : ascii -> bool)          (* one character of a class *)
| Cat (r1 r2 : re)
| Alt (r1 r2 : re)
| Star (r : re)                    (* greedy [r*] *)
| Lazy (r : re)                    (* non-greedy [r*?] *)
| Bol (multiline : bool)           (* [^], with or without [(?m)] *)
| Grp (i : nat) (r : re).          (* capturing group number [i] *)

(** The state of a match attempt: the offset reached, the character just
    before it, the text still ahead and the groups captured so far. *)
Record state : Type := mkState {
  pos : nat;
  prev : option ascii;
  rest : str;
  caps : list (nat * (nat * nat))
}.

Definition orelse {A} (a b : option A) : option A :=
  match a with Some _ => a | None => b end.

Definition at_bol (multiline : bool) (s : state) : bool :=
  match prev s with
  | None => true
  | Some c => multiline && Ascii.eqb c LF
  end.

Fixpoint go (r : re) (s : state) (k : state -> option state) {struct r}
  : option state :=
  match r with
  | Eps => k s
  | Chr p =>
      match rest s with
      | c :: t =>
          if p c then k (mkState (S (pos s)) (Some c) t (caps s)) else None
      | [] => None
      end
  | Cat r1 r2 => go r1 s (fun s1 => go r2 s1 k)
  | Alt r1 r2 => orelse (go r1 s k) (go r2 s k)
  | Star r1 =>
      (fix loop (n : nat) (s : state) {struct n} : option state :=
         match n with
         | 0 => k s
         | S n' =>
             orelse
               (go r1 s (fun s1 =>
                  if pos s <? pos s1 then loop n' s1 else None))
               (k s)
         end) (length (rest s)) s
  | Lazy r1 =>
      (fix loop (n : nat) (s : state) {struct n} : option state :=
         match n with
         | 0 => k s
         | S n' =>
             orelse
               (k s)
               (go r1 s (fun s1 =>
                  if pos s <? pos s1 then loop n' s1 else None))
         end) (length (rest s)) s
  | Bol m => if at_bol m s then k s else None
  | Grp i r1 =>
      go r1 s (fun s1 =>
        k (mkState (pos s1) (prev s1) (rest s1)
             ((i, (pos s, pos s1)) :: caps s1)))
  end.

(** Derived forms. *)
Definition Plus (r : re) : re := Cat r (Star r).
Definition Opt (r : re) : re := Alt r Eps.
Fixpoint Rep (n : nat) (r : re) : re :=
  match n with
  | 0 => Eps
  | S n' => Cat r (Rep n' r)
  end.
(** [r{n,}] *)
Definition AtLeast (n : nat) (r : re) : re := Cat (Rep n r) (Star r).

Definition Char (c : ascii) : re := Chr (Ascii.eqb c).
(** A literal character under [(?i)]. *)
Definition CharI (c : ascii) : re :=
  Chr (fun x => Ascii.eqb (lower_char x) (lower_char c)).

Fixpoint Lit (s : str) : re :=
  match s with
  | [] => Eps
  | c :: s' => Cat (Char c) (Lit s')
  end.
Fixpoint LitI (s : str) : re :=
  match s with
  | [] => Eps
  | c :: s' => Cat (CharI c) (LitI s')
  end.

(** A match object: [m.start()], [m.end()] and the captured spans. *)
Record rmatch : Type := mkMatch {
  m_start : nat;
  m_end : nat;
  m_caps : list (nat * (nat * nat))
}.

Definition match_here (r : re) (s : state) : option rmatch :=
  match go r s (fun s1 => Some s1) with
  | Some s1 => Some (mkMatch (pos s) (pos s1) (caps s1))
  | None => None
  end.

(** Leftmost match at or after the state [s]. *)
Fixpoint search_from (r : re) (n : nat) (s : state) {struct n}
  : option rmatch :=
  match match_here r s with
  | Some m => Some m
  | None =>
      match n, rest s with
      | S n', c :: t => search_from r n' (mkState (S (pos s)) (Some c) t [])
      | _, _ => None
      end
  end.

Definition start_state (text : str) : state := mkState 0 None text [].

(** The state at offset [i] of [text]. *)
Definition state_at (text : str) (i : nat) : state :=
  mkState i (match i with 0 => None | S j => nth_error text j end)
          (skipn i text) [].

(** [re.search(r, text)] *)
Definition search (r : re) (text : str) : option rmatch :=
  search_from r (length text) (start_state text).

(** [re.search(r, text) is not None] *)
Definition is_match (r : re) (text : str) : bool :=
  match search r text with Some _ => true | None => false end.

(** [list(re.finditer(r, text))]: successive leftmost matches that do not
    overlap; after an empty match the scan moves on by one character. *)
Fixpoint finditer_from (r : re) (text : str) (fuel : nat) (i : nat)
  : list rmatch :=
  match fuel with
  | 0 => []
  | S fuel' =>
      match search_from r (length text - i) (state_at text i) with
      | None => []
      | Some m =>
          let next := if m_start m <? m_end m then m_end m else S (m_end m) in
          if length text <? next then [m]
          else m :: finditer_from r text fuel' next
      end
  end.

Definition finditer (r : re) (text : str) : list rmatch :=
  finditer_from r text (S (length text)) 0.

(** [m.group(i)]; [None] when the group took no part in the match. *)
Definition group (text : str) (m : rmatch) (i : nat) : option str :=
  match i with
  | 0 => Some (slice (m_start m) (m_end m) text)
  | _ =>
      match find (fun c => fst c =? i) (m_caps m) with
      | Some (_, (a, b)) => Some (slice a b text)
      | None => None
      end
  end.

(** [re.sub(r, '', text)]: every match is cut out. *)
Fixpoint sub_empty_from (r : re) (fuel : nat) (s : state) : str :=
  match fuel with
  | 0 => rest s
  | S fuel' =>
      match rest s with
      | [] => []
      | c :: t =>
          match go r s (fun s1 => Some s1) with
          | Some s1 =>
              if pos s <? pos s1
              then sub_empty_from r fuel'
                     (mkState (pos s1) (prev s1) (rest s1) [])
              else c :: sub_empty_from r fuel'
                          (mkState (S (pos s)) (Some c) t [])
          | None =>
              c :: sub_empty_from r fuel' (mkState (S (pos s)) (Some c) t [])
          end
      end
  end.

Definition sub_empty (r : re) (text : str) : str :=
  sub_empty_from r (length text) (start_state text).

End Re.

(** ** util.py *)

Module Util.
Import Py Re.

Definition is_alnum (c : ascii) : bool :=
  in_range 65 90 c || in_range 97 122 c || in_range 48 57 c.

(** [windows(sequence, 2)] *)
Fixpoint windows2 {A} (l : list A) : list (A * A) :=
  match l with
  | a :: ((b :: _) as t) => (a, b) :: windows2 t
  | _ => []
  end.

(** [flatten(lst)] *)
Definition flatten {A} (lst : list (list A)) : list A := concat lst.

Definition _is_match (pattern : re) (string : str) : bool :=
  is_match pattern string.

(** [(?i)(?:^|[^A-Za-z0-9]|g)test] *)
Definition test_pattern : re :=
  Cat (Alt (Bol false) (Alt (Chr (fun c => negb (is_alnum c))) (CharI "g")))
      (LitI (lit "test")).

(** [(?i)(?:^|[^A-Za-z0-9])benchmark] *)
Definition benchmark_pattern : re :=
  Cat (Alt (Bol false) (Chr (fun c => negb (is_alnum c))))
      (LitI (lit "benchmark")).

Definition is_test (string : str) : bool :=
  if contains (lit "non-test") (lower string) then false
  else _is_match test_pattern string.

Definition is_benchmark (string : str) : bool :=
  _is_match benchmark_pattern string.

End Util.

(** ** Exceptions

    A function that can raise returns a [result]. *)

Inductive exn : Type :=
| AssertionError
| NotImplementedError
| ValueError
| AttributeError
| TypeError
| OutOfFuel.

Inductive result (A : Type) : Type :=
| Ok (a : A)
| Raise (e : exn).

Arguments Ok {A} a.
Arguments Raise {A} e.

Definition bind {A B} (m : result A) (f : A -> result B) : result B :=
  match m with
  | Ok a => f a
  | Raise e => Raise e
  end.

Notation "x <- m ;; k" := (bind m (fun x => k))
  (at level 61, m at next level, right associativity).

Definition assert (b : bool) : result unit :=
  if b then Ok tt else Raise AssertionError.

Definition is_ok {A} (m : result A) : bool :=
  match m with Ok _ => true | Raise _ => false end.

(** ** make.py *)

Module Make.
Import Py Re.

(** The node classes.  [Makefile] and [BlockList] are both Python lists of
    nodes; a [Makefile] is modelled as the [list node] it holds. *)
#[warnings="-register-all"]
Inductive node : Type :=
| Block (s : str)
| BlockList (l : list node)
| CommentBlock (comment title : str) (child : node)
| DirectiveBlock (start : str) (end_ : option str) (child : node).

Definition Makefile := list node.

Definition is_block (n : node) : bool :=
  match n with Block _ => true | _ => false end.
Definition is_block_list (n : node) : bool :=
  match n with BlockList _ => true | _ => false end.
Definition is_comment (n : node) : bool :=
  match n with CommentBlock _ _ _ => true | _ => false end.
Definition is_directive (n : node) : bool :=
  match n with DirectiveBlock _ _ _ => true | _ => false end.

Definition is_test (n : node) : bool :=
  match n with CommentBlock _ title _ => Util.is_test title | _ => false end.
Definition is_benchmark (n : node) : bool :=
  match n with
  | CommentBlock _ title _ => Util.is_benchmark title
  | _ => false
  end.
Definition is_dev (n : node) : bool := is_test n || is_benchmark n.

Definition has_block_list (n : node) : bool :=
  match n with
  | CommentBlock _ _ child | DirectiveBlock _ _ child => is_block_list child
  | _ => false
  end.

(** [__str__] of every node class *)
Fixpoint to_str (n : node) : str :=
  match n with
  | Block s => s
  | BlockList l => join [LF] (map to_str l)
  | CommentBlock comment _ child => comment ++ [LF] ++ to_str child
  | DirectiveBlock start end_ child =>
      start ++ [LF] ++ to_str child ++
      match end_ with
      | Some e => [LF] ++ e
      | None => []
      end
  end.

(** [Makefile.__str__], [Makefile.dumps] *)
Definition dumps (m : Makefile) : str := join [LF] (map to_str m).

(** [if isinstance(child, list) and len(child) == 1: child = child[0]] *)
Definition flatten1 (child : node) : node :=
  match child with
  | BlockList [x] => x
  | _ => child
  end.

(** [DirectiveBlock.__init__] *)
Definition new_DirectiveBlock (start : str) (end_ : option str)
           (child : node) : node :=
  DirectiveBlock start end_ (flatten1 child).

(** [flatten_single] of [CommentBlock] and [DirectiveBlock] *)
Definition flatten_single (n : node) : node :=
  match n with
  | CommentBlock c t child => CommentBlock c t (flatten1 child)
  | DirectiveBlock s e child => DirectiveBlock s e (flatten1 child)
  | _ => n
  end.

(** *** _split_directives *)

Definition start_directives : list str :=
  [lit "ifeq"; lit "ifneq"; lit "ifdef"; lit "ifndef"].
Definition end_directives : list str := [lit "endif"].

(** [s.startswith(tuple)] *)
Definition startswith_any (ps : list str) (s : str) : bool :=
  existsb (fun p => startswith p s) ps.

Definition add_current (blocks : list node) (current : list str)
  : list node :=
  match current with
  | [] => blocks
  | _ => blocks ++ [Block (join [LF] current)]
  end.

(** The loop of [_split_directives].  [lines] is what the shared iterator
    still holds; the result carries the lines left to the caller.  Every
    round and every nested call costs one unit of [fuel]. *)
Fixpoint split_loop (fuel : nat) (in_scope : bool) (blocks : list node)
         (current : list str) (lines : list str)
  : option (list node * option str * list str) :=
  match fuel with
  | 0 => None
  | S fuel' =>
      match lines with
      | [] => Some (add_current blocks current, None, [])
      | line :: lines' =>
          let trimmed := lstrip line in
          if startswith_any start_directives trimmed then
            let start := line in
            let blocks1 := add_current blocks current in
            match split_loop fuel' true [] [] lines' with
            | None => None
            | Some (child, end_, lines'') =>
                let directive :=
                  flatten_single
                    (new_DirectiveBlock start end_ (BlockList child)) in
                split_loop fuel' in_scope (blocks1 ++ [directive]) [] lines''
            end
          else if in_scope && startswith_any end_directives trimmed then
            Some (add_current blocks current, Some line, lines')
          else split_loop fuel' in_scope blocks (current ++ [line]) lines'
      end
  end.

Definition _split_directives_fuel (fuel : nat) (lines : list str)
           (in_scope : bool) :=
  split_loop fuel in_scope [] [] lines.

(** [_split_directives(lines, in_scope)]: the blocks and the end line. *)
Definition _split_directives (lines : list str) (in_scope : bool)
  : option (list node * option str) :=
  match _split_directives_fuel (S (length lines)) lines in_scope with
  | Some (blocks, end_, _) => Some (blocks, end_)
  | None => None
  end.

(** *** _split_comments *)

(** [sp = r'[ \t]'] *)
Definition sp : re := Chr (fun c => Ascii.eqb c " " || Ascii.eqb c TAB).
(** [nl = r'(?:\r\n|\r|\n)'] *)
Definition nl : re := Alt (Lit [CR; LF]) (Alt (Char CR) (Char LF)).
(** [comment = r'[^\x00-\x08\x0A-\x1F]*'] *)
Definition comment : re :=
  Star (Chr (fun c => negb (in_range 0 8 c || in_range 10 31 c))).
(** [\s] of re2: tab, line feed, form feed, carriage return, space *)
Definition ws : re :=
  Chr (fun c => Ascii.eqb c TAB || Ascii.eqb c LF || Ascii.eqb c FF
                || Ascii.eqb c CR || Ascii.eqb c " ").

(** [sep1 = r'#\s+={5,}'], [sep2 = r'#\s+-{5,}'], [sep3 = r'#{6,}'] *)
Definition sep1 : re := Cat (Char "#") (Cat (Plus ws) (AtLeast 5 (Char "="))).
Definition sep2 : re := Cat (Char "#") (Cat (Plus ws) (AtLeast 5 (Char "-"))).
Definition sep3 : re := AtLeast 6 (Char "#").

Definition title_pattern : re :=
  let line := Cat (Star sp) (Cat (Char "#") (Cat (Star sp) comment)) in
  Cat (Star (Cat line nl)) line.

(** Each of the three shapes captures its title in the group [g]. *)
Definition sandwich_pattern (g : nat) (sep : re) : re :=
  Cat (Star sp) (Cat sep (Cat nl (Cat (Grp g title_pattern)
    (Cat nl (Cat (Star sp) sep))))).
Definition suffix_pattern (g : nat) (sep : re) : re :=
  Cat (Grp g title_pattern) (Cat nl (Cat (Star sp) sep)).
Definition prefix_pattern (g : nat) (sep : re) : re :=
  Cat (Star sp) (Cat sep (Cat nl (Grp g title_pattern))).

(** [(?:sandwich)|(?:prefix)|(?:suffix)], groups [g], [g+1], [g+2] *)
Definition sep_pattern (g : nat) (sep : re) : re :=
  Alt (sandwich_pattern g sep)
      (Alt (prefix_pattern (g + 1) sep) (suffix_pattern (g + 2) sep)).

(** The alternatives of all separators: group 1 of the pattern. *)
Definition header : re :=
  Alt (sep_pattern 2 sep1) (Alt (sep_pattern 5 sep2) (sep_pattern 8 sep3)).

(** [create_pattern(sep1, sep2, sep3)]: [(?m)^(...)nl?] *)
Definition pattern : re := Cat (Bol true) (Cat (Grp 1 header) (Opt nl)).

(** [r'[ \t]*#[ \t]*'], removed from the title lines *)
Definition marker : re := Cat (Star sp) (Cat (Char "#") (Star sp)).

Definition endswith_LF (s : str) : bool :=
  match rev s with
  | c :: _ => Ascii.eqb c LF
  | [] => false
  end.

Definition new_comment (contents : str) (m : rmatch) (nxt : option rmatch)
  : result node :=
  let comment := match group contents m 1 with Some c => c | None => [] end in
  let groups := map (group contents m) (seq 2 9) in
  let lines := flat_map (fun g => match g with Some l => [l] | None => [] end)
                        groups in
  let title := join [LF] (map (sub_empty marker) lines) in
  match nxt with
  | None =>
      let data := skipn (m_end m) contents in
      Ok (CommentBlock comment title (Block data))
  | Some n =>
      let data := slice (m_end m) (m_start n) contents in
      _ <- assert (endswith_LF data) ;;
      Ok (CommentBlock comment title (Block (removelast data)))
  end.

Fixpoint sequence {A} (l : list (result A)) : result (list A) :=
  match l with
  | [] => Ok []
  | m :: l' => a <- m ;; r <- sequence l' ;; Ok (a :: r)
  end.

Definition _split_comments (contents : str) : result (list node) :=
  match contents with
  | [] => Ok []
  | _ =>
      let matches := finditer pattern contents in
      match matches with
      | [] => Ok [Block contents]
      | first :: _ =>
          let last_ := last matches first in
          blocks0 <-
            (if m_start first =? 0 then Ok []
             else
               _ <- assert (match nth_error contents (m_start first - 1) with
                            | Some c => Ascii.eqb c LF
                            | None => false
                            end) ;;
               Ok [Block (firstn (m_start first - 1) contents)]) ;;
          blocks1 <-
            sequence (map (fun w => new_comment contents (fst w) (Some (snd w)))
                          (Util.windows2 matches)) ;;
          blocks2 <- new_comment contents last_ None ;;
          Ok (blocks0 ++ blocks1 ++ [blocks2])
      end
  end.

(** *** split_comments of every node class *)

Fixpoint split_comments (n : node) : result (list node) :=
  match n with
  | Block s => _split_comments s
  | BlockList l =>
      parts <- sequence (map split_comments l) ;;
      Ok (Util.flatten parts)
  | CommentBlock _ _ _ => Raise NotImplementedError
  | DirectiveBlock start end_ child =>
      child' <- split_comments child ;;
      Ok [new_DirectiveBlock start end_ (BlockList child')]
  end.

(** *** _group_comments and group_comments *)

(** [new_comment] of [_group_comments]: the child is kept when it is a
    non-empty string. *)
Definition new_group (comment title : str) (child : node) : node :=
  CommentBlock comment title
    (BlockList (match child with
                | Block [] => []
                | BlockList [] => []
                | _ => [child]
                end)).

(** [current.child.append(block)] and [current.append(block)] *)
Definition append_current (current block : node) : node :=
  match current with
  | CommentBlock c t (BlockList l) => CommentBlock c t (BlockList (l ++ [block]))
  | BlockList l => BlockList (l ++ [block])
  | _ => current
  end.

(** [result.append(current)] after [flatten_single], or
    [result += current] *)
Definition close_current (result_ : list node) (current : node) : list node :=
  match current with
  | BlockList l => result_ ++ l
  | _ => result_ ++ [flatten_single current]
  end.

Section GroupComments.
(** [block.group_comments()] of the elements, given below *)
Variable group_comments : node -> result node.

Fixpoint group_loop (result_ : list node) (current : node)
         (blocks : list node) : result (list node) :=
  match blocks with
  | [] => Ok (close_current result_ current)
  | block :: blocks' =>
      _ <- assert (negb (is_comment block) ||
                   match block with
                   | CommentBlock _ _ (Block _) => true
                   | _ => false
                   end) ;;
      _ <- assert (negb (is_block_list block)) ;;
      match block with
      | CommentBlock c t child =>
          group_loop (close_current result_ current) (new_group c t child)
                     blocks'
      | _ =>
          block' <- group_comments block ;;
          group_loop result_ (append_current current block') blocks'
      end
  end.
End GroupComments.

Fixpoint group_comments (n : node) : result node :=
  match n with
  | Block s => Ok (Block s)
  | BlockList l =>
      l' <- (fix loop (result_ : list node) (current : node)
                 (blocks : list node) : result (list node) :=
               match blocks with
               | [] => Ok (close_current result_ current)
               | block :: blocks' =>
                   _ <- assert (negb (is_comment block) ||
                                match block with
                                | CommentBlock _ _ (Block _) => true
                                | _ => false
                                end) ;;
                   _ <- assert (negb (is_block_list block)) ;;
                   match block with
                   | CommentBlock c t child =>
                       loop (close_current result_ current)
                            (new_group c t child) blocks'
                   | _ =>
                       block' <- group_comments block ;;
                       loop result_ (append_current current block') blocks'
                   end
               end) [] (BlockList []) l ;;
      Ok (BlockList l')
  | CommentBlock _ _ _ => Raise NotImplementedError
  | DirectiveBlock start end_ child =>
      child' <- group_comments child ;;
      Ok (flatten_single (DirectiveBlock start end_ child'))
  end.

(** [_group_comments(blocks)] *)
Definition _group_comments (blocks : list node) : result (list node) :=
  group_loop group_comments [] (BlockList []) blocks.

(** *** Makefile.loads *)

Definition loads (contents : str) : result Makefile :=
  match _split_directives (splitlines contents) false with
  | None => Raise OutOfFuel
  | Some (directives, _) =>
      blocks <- split_comments (BlockList directives) ;;
      _group_comments blocks
  end.


(** *** filter *)

Section Filter.
Variable op : node -> bool.

(** [node.filter(op)]: the truth value returned, and the node as the
    call leaves it.  A list is true when it is not empty. *)
Fixpoint filter_node (n : node) : bool * node :=
  match n with
  | Block _ => (op n, n)
  | BlockList l =>
      let l' :=
        (fix filter_list (l : list node) : list node :=
           match l with
           | [] => []
           | i :: l0 =>
               let (keep, i') := filter_node i in
               if keep then i' :: filter_list l0 else filter_list l0
           end) l in
      (match l' with [] => false | _ => true end, BlockList l')
  | CommentBlock c t child =>
      if op n then
        let (keep, child') := filter_node child in
        (keep, CommentBlock c t child')
      else (false, n)
  | DirectiveBlock s e child =>
      if op n then
        let (keep, child') := filter_node child in
        (keep, DirectiveBlock s e child')
      else (false, n)
  end.

(** [_filter_list(lst, op)] *)
Fixpoint _filter_list (lst : list node) : list node :=
  match lst with
  | [] => []
  | i :: l0 =>
      let (keep, i') := filter_node i in
      if keep then i' :: _filter_list l0 else _filter_list l0
  end.
End Filter.

(** [Makefile.filter(op)] *)
Definition filter (op : node -> bool) (m : Makefile) : Makefile :=
  _filter_list op m.


(** *** recurse *)

(** What the loop of [_recurse_list] yields for one [node] of the list: the
    node, then, when [node.has_block_list()], the nodes of
    [node.child.recurse(max_depth, depth + 1)]. *)
Fixpoint recurse_node (max_depth depth : Z) (n : node) : list node :=
  n :: match n with
       | CommentBlock _ _ (BlockList l) | DirectiveBlock _ _ (BlockList l) =>
           if (depth + 1 =? max_depth)%Z then []
           else flat_map (recurse_node max_depth (depth + 1)) l
       | _ => []
       end.

(** [_recurse_list(lst, max_depth, depth)], the nodes in the order the
    generator yields them; [Makefile.recurse] and [BlockList.recurse] are
    this function. *)
Definition _recurse_list (lst : list node) (max_depth depth : Z)
  : list node :=
  if (depth =? max_depth)%Z then []
  else flat_map (recurse_node max_depth depth) lst.

(** [makefile.recurse()] with the default arguments *)
Definition recurse (m : Makefile) : list node := _recurse_list m (-1) 0.


(** [Makefile.dump(fp)]: the text written to the file *)
Definition dump (m : Makefile) : str := dumps m ++ [LF].

End Make.

(** ** soong.py *)

Module Soong.
Import Py Re.

(** The value classes.  [Ident] and [String] hold the token text
    ([String] with its quotes), [Integer] the number parsed from the
    digits.  A [Map] is a Python [dict] from [Ident] keys to [MapValue]s:
    the entries in insertion order, keys distinct. *)
#[warnings="-register-all"]
Inductive expr : Type :=
| Ident (s : str)
| String (s : str)
| Integer (n : N)
| Bool (value : bool)
| Map (items : list (str * map_value))
| List (l : list expr)
| BinaryOperator (lhs : expr) (op : str) (rhs : expr)
with map_value : Type :=
| MapValue (delimiter : str) (value : expr).

(** The rule classes; [name] is an [Ident], the body of a [Scope] a
    [Map]. *)
Inductive rule : Type :=
| Assignment (name : str) (e : expr)
| BinaryOperatorAssignment (name : str) (op : str) (e : expr)
| Scope (name : str) (map : list (str * map_value)).

Definition Ast := list rule.

Definition is_map (e : expr) : bool :=
  match e with Map _ => true | _ => false end.
Definition is_list (e : expr) : bool :=
  match e with List _ => true | _ => false end.
Definition is_string (e : expr) : bool :=
  match e with String _ => true | _ => false end.
Definition is_ident (e : expr) : bool :=
  match e with Ident _ => true | _ => false end.
Definition is_binary_operator (e : expr) : bool :=
  match e with BinaryOperator _ _ _ => true | _ => false end.
Definition is_scope (r : rule) : bool :=
  match r with Scope _ _ => true | _ => false end.

(** [_indent(indent, depth)] *)
Definition _indent (indent depth : nat) : str := repeat " "%char (indent * depth).

(** [str(int)] *)
Definition str_of_N (n : N) : str :=
  lit (DecimalString.NilEmpty.string_of_uint (N.to_uint n)).

(** [json.dumps(bool)] *)
Definition str_of_bool (b : bool) : str :=
  if b then lit "true" else lit "false".

Section ToStr.
Variables (pretty : bool) (indent : nat).

(** [to_str(pretty, indent, depth)] of the value classes *)
Fixpoint to_str (depth : nat) (e : expr) {struct e} : str :=
  match e with
  | Ident s => s
  | String s => s
  | Integer n => str_of_N n
  | Bool b => str_of_bool b
  | Map items =>
      let pairs :=
        (fix fmt_items (items : list (str * map_value)) : list str :=
           match items with
           | [] => []
           | (k, v) :: rest =>
               (k ++ map_value_to_str (depth + 1) v) :: fmt_items rest
           end) items in
      match items with
      | [] => lit "{}"
      | _ =>
          if pretty then
            lit "{" ++ [LF] ++
            flat_map (fun pair =>
              _indent indent (depth + 1) ++ pair ++ lit "," ++ [LF]) pairs ++
            _indent indent depth ++ lit "}"
          else lit "{" ++ join (lit ", ") pairs ++ lit "}"
      end
  | List l =>
      let elements :=
        (fix fmt_elements (l : list expr) : list str :=
           match l with
           | [] => []
           | x :: rest =>
               (if is_map x then to_str depth x else to_str (depth + 1) x)
               :: fmt_elements rest
           end) l in
      if (length l <=? 1) || negb pretty then
        lit "[" ++ join (lit ", ") elements ++ lit "]"
      else
        lit "[" ++ [LF] ++
        flat_map (fun element =>
          _indent indent (depth + 1) ++ element ++ lit "," ++ [LF]) elements ++
        _indent indent depth ++ lit "]"
  | BinaryOperator lhs op rhs =>
      to_str depth lhs ++ lit " " ++ op ++ lit " " ++ to_str depth rhs
  end
with map_value_to_str (depth : nat) (v : map_value) {struct v} : str :=
  match v with
  | MapValue delimiter value =>
      if str_eqb delimiter (lit "=")
      then lit " = " ++ to_str depth value
      else lit ": " ++ to_str depth value
  end.

(** [to_str] of the rule classes *)
Definition rule_to_str (depth : nat) (r : rule) : str :=
  match r with
  | Assignment name e => name ++ lit " = " ++ to_str depth e
  | BinaryOperatorAssignment name op e =>
      name ++ lit " " ++ op ++ lit " " ++ to_str depth e
  | Scope name m => name ++ lit " " ++ to_str depth (Map m)
  end.

(** [Ast.to_str(pretty, indent)] *)
Definition ast_to_str (a : Ast) : str :=
  join [LF] (map (rule_to_str 0) a).
End ToStr.

(** [Ast.dumps(pretty, indent)] *)
Definition dumps (a : Ast) (pretty : bool) (indent : nat) : str :=
  ast_to_str pretty indent a.

(** [str(ast)]: the compact form *)
Definition ast_str (a : Ast) : str := ast_to_str false 4 a.


(** *** Equality ([__eq__]) *)

(** [s[1:-1]] *)
Definition unquote (s : str) : str := removelast (tl s).

(** [dict.get(key)] *)
Fixpoint get {V} (items : list (str * V)) (key : str) : option V :=
  match items with
  | [] => None
  | (k, v) :: rest => if str_eqb k key then Some v else get rest key
  end.

Definition and_then (a : result bool) (b : result bool) : result bool :=
  x <- a ;; if x then b else Ok false.

(** [a == b] between two values.  Comparing with a [Bool] or a
    [BinaryOperator] of another class reads an attribute the other side
    does not have. *)
Fixpoint expr_eq (a b : expr) {struct a} : result bool :=
  match a, b with
  | Ident s, Ident t => Ok (str_eqb s t)
  | Ident s, String t => Ok (str_eqb s t)
  | String s, String t => Ok (str_eqb (unquote s) (unquote t))
  | String s, Ident t => Ok (str_eqb (unquote s) t)
  | Integer n, Integer m => Ok (N.eqb n m)
  | Bool x, Bool y => Ok (Bool.eqb x y)
  | Bool _, _ | _, Bool _ => Raise AttributeError
  | BinaryOperator l1 o1 r1, BinaryOperator l2 o2 r2 =>
      and_then (expr_eq l1 l2)
        (and_then (Ok (str_eqb o1 o2)) (expr_eq r1 r2))
  | BinaryOperator _ _ _, _ | _, BinaryOperator _ _ _ => Raise AttributeError
  | Map m1, Map m2 =>
      if length m1 =? length m2 then
        (fix dict_equal (items : list (str * map_value)) : result bool :=
           match items with
           | [] => Ok true
           | (k, v) :: rest =>
               match get m2 k with
               | None => Ok false
               | Some w => and_then (map_value_eq v w) (dict_equal rest)
               end
           end) m1
      else Ok false
  | List l1, List l2 =>
      if length l1 =? length l2 then
        (fix list_equal (l1 l2 : list expr) : result bool :=
           match l1, l2 with
           | x :: l1', y :: l2' => and_then (expr_eq x y) (list_equal l1' l2')
           | _, _ => Ok true
           end) l1 l2
      else Ok false
  | _, _ => Ok false
  end
with map_value_eq (a b : map_value) {struct a} : result bool :=
  match a, b with
  | MapValue _ v, MapValue _ w => expr_eq v w
  end.

(** *** Classification *)

(** [value.lower()]: only the string classes have it. *)
Definition lower_of (e : expr) : result str :=
  match e with
  | Ident s | String s => Ok (lower s)
  | _ => Raise AttributeError
  end.

Definition map_is_art_check (m : list (str * map_value)) : result bool :=
  match get m (lit "name") with
  | None => Ok false
  | Some (MapValue _ value) =>
      l <- lower_of value ;; Ok (contains (lit "art-check") l)
  end.

(** [Map.is_test] *)
Definition map_is_test (m : list (str * map_value)) : result bool :=
  match get m (lit "name") with
  | None => Ok false
  | Some (MapValue _ value) =>
      l <- lower_of value ;;
      Ok (Util.is_test l && negb (contains (lit "py2-c-module") l))
  end.

(** [Map.is_benchmark]: [re.search] wants a string. *)
Definition map_is_benchmark (m : list (str * map_value)) : result bool :=
  match get m (lit "name") with
  | None => Ok false
  | Some (MapValue _ (Ident s)) | Some (MapValue _ (String s)) =>
      Ok (Util.is_benchmark s)
  | Some _ => Raise TypeError
  end.

(** [a or b] *)
Definition or_else (a : result bool) (b : result bool) : result bool :=
  x <- a ;; if x then Ok true else b.

Definition map_is_dev (m : list (str * map_value)) : result bool :=
  or_else (map_is_test m) (map_is_benchmark m).

Definition scope_is_art_check (name : str) (m : list (str * map_value))
  : result bool :=
  or_else (Ok (contains (lit "art-check") (lower name))) (map_is_art_check m).
Definition scope_is_test (name : str) (m : list (str * map_value))
  : result bool :=
  or_else (Ok (Util.is_test name)) (map_is_test m).
Definition scope_is_benchmark (name : str) (m : list (str * map_value))
  : result bool :=
  or_else (Ok (Util.is_benchmark name)) (map_is_benchmark m).
Definition scope_is_dev (name : str) (m : list (str * map_value))
  : result bool :=
  or_else (scope_is_art_check name m)
    (or_else (scope_is_test name m) (scope_is_benchmark name m)).

(** *** filter *)

(** [Ast.filter(op)] *)
Definition ast_filter (op : rule -> bool) (a : Ast) : Ast := List.filter op a.
(** [List.filter(op)] *)
Definition list_filter (op : expr -> bool) (l : list expr) : list expr :=
  List.filter op l.
(** [Map.filter(op)] *)
Definition map_filter (op : str -> map_value -> bool)
           (m : list (str * map_value)) : list (str * map_value) :=
  List.filter (fun kv => op (fst kv) (snd kv)) m.


(** *** Lexer *)

Inductive token : Type :=
| BOOL (value : str)
| INTEGER (value : str)
| IDENT (value : str)
| STRING (value : str)
| LBRACKET | RBRACKET | LBRACE | RBRACE
| COLON | COMMA | EQUALS | PLUS.

Definition any_char : re := Chr (fun _ => true).
Definition not_LF : re := Chr (fun c => negb (Ascii.eqb c LF)).
Definition digit : re := Chr (in_range 48 57).
Definition ident_start (c : ascii) : bool :=
  in_range 97 122 c || in_range 65 90 c || Ascii.eqb c "_".
Definition ident_char (c : ascii) : bool :=
  ident_start c || in_range 48 57 c.

(** [_COMMENT]: two slashes and the rest of the line, or a slash and a
    star, the shortest run of any characters, a star and a slash. *)
Definition COMMENT_re : re :=
  Alt (Cat (Lit (lit "//")) (Star not_LF))
      (Cat (Lit (lit "/*")) (Cat (Lazy any_char) (Lit (lit "*/")))).

(** [STRING], as the f-string leaves it: [_NL] is spliced in after the
    two backslashes, and [_ESCAPE], not an f-string itself, contributes
    the literal text [{_UNICODE}].  Between the quotes the alternatives
    are: [[^\n\r\f\\Q]] (Q the quote), [\\\n], [\r\n], [\r], [\f],
    [{_UNICODE}] and [\\[^\r\n\f0-9a-f]], repeated. *)
Definition plain_char (c : ascii) : bool :=
  negb (Ascii.eqb c LF || Ascii.eqb c CR || Ascii.eqb c FF
        || Ascii.eqb c "\" || Ascii.eqb c DQUOTE).
Definition escaped_char (c : ascii) : bool :=
  negb (Ascii.eqb c CR || Ascii.eqb c LF || Ascii.eqb c FF
        || in_range 48 57 c || in_range 97 102 c).
Definition STRING_body : re :=
  Alt (Chr plain_char)
 (Alt (Lit ["\"%char; LF])
 (Alt (Lit [CR; LF])
 (Alt (Char CR)
 (Alt (Char FF)
 (Alt (Lit (lit "{_UNICODE}"))
      (Cat (Char "\") (Chr escaped_char))))))).
Definition STRING_re : re :=
  Cat (Char DQUOTE) (Cat (Star STRING_body) (Char DQUOTE)).

Definition INTEGER_re : re := Plus digit.
Definition BOOL_re : re := Alt (Lit (lit "true")) (Lit (lit "false")).
Definition IDENT_re : re := Cat (Chr ident_start) (Star (Chr ident_char)).
Definition NEWLINE_re : re := Plus (Char LF).

(** What a rule does with the text it matched: a token, or nothing for
    [ignore_comment] and [newline]. *)
Definition rules : list (re * (str -> option token)) :=
  [ (COMMENT_re, fun _ => None);
    (STRING_re, fun v => Some (STRING v));
    (INTEGER_re, fun v => Some (INTEGER v));
    (BOOL_re, fun v => Some (BOOL v));
    (IDENT_re, fun v => Some (IDENT v));
    (Char "[", fun _ => Some LBRACKET);
    (Char "]", fun _ => Some RBRACKET);
    (Char "{", fun _ => Some LBRACE);
    (Char "}", fun _ => Some RBRACE);
    (Char ":", fun _ => Some COLON);
    (Char ",", fun _ => Some COMMA);
    (Char "=", fun _ => Some EQUALS);
    (Char "+", fun _ => Some PLUS);
    (NEWLINE_re, fun _ => None) ].

(** The master pattern: the first rule, in the order of the class body,
    that matches at the current offset. *)
Fixpoint first_match (rs : list (re * (str -> option token))) (s : state)
  : option (state * option token) :=
  match rs with
  | [] => None
  | (r, action) :: rs' =>
      match go r s (fun s1 => Some s1) with
      | Some s1 => Some (s1, action (firstn (pos s1 - pos s) (rest s)))
      | None => first_match rs' s
      end
  end.

(** [Lexer.tokenize]: blanks and tabs are skipped ([ignore]); a character
    no rule matches is an error. *)
Fixpoint tokenize_from (fuel : nat) (s : state) : result (list token) :=
  match fuel with
  | 0 => Raise OutOfFuel
  | S fuel' =>
      match rest s with
      | [] => Ok []
      | c :: t =>
          if Ascii.eqb c " " || Ascii.eqb c TAB then
            tokenize_from fuel' (mkState (S (pos s)) (Some c) t [])
          else
            match first_match rules s with
            | None => Raise ValueError
            | Some (s1, tok) =>
                toks <- tokenize_from fuel'
                          (mkState (pos s1) (prev s1) (rest s1) []) ;;
                Ok (match tok with Some t => t :: toks | None => toks end)
            end
      end
  end.

Definition tokenize (text : str) : result (list token) :=
  tokenize_from (S (length text)) (start_state text).


(** *** Parser

    [sly] builds an LALR(1) table from the grammar rules of [Parser];
    [PLUS] is declared left associative.  The grammar is written here as
    a deterministic parser with one token of lookahead, which accepts the
    same token sequences and builds the same values.  [expr_rec] parses an
    [expr] nested one level deeper. *)

(** [int(text)] of a run of digits *)
Definition N_of_digits (s : str) : N :=
  fold_left (fun acc c => (acc * 10 + N.of_nat (code c - 48))%N) s 0%N.

(** [dict[k] = v] *)
Fixpoint dict_set {V} (items : list (str * V)) (k : str) (v : V)
  : list (str * V) :=
  match items with
  | [] => [(k, v)]
  | (k', v') :: rest =>
      if str_eqb k' k then (k', v) :: rest
      else (k', v') :: dict_set rest k v
  end.

(** [dict(pairs)] *)
Definition dict_of_pairs {V} (pairs : list (str * V)) : list (str * V) :=
  fold_left (fun d kv => dict_set d (fst kv) (snd kv)) pairs [].

Definition parsed (A : Type) : Type := result (A * list token).

Section Grammar.
Variable expr_rec : list token -> parsed expr.

(** [pair : ident COLON expr | ident EQUALS expr] *)
Definition parse_pair (ts : list token) : parsed (str * map_value) :=
  match ts with
  | IDENT k :: COLON :: ts' =>
      r <- expr_rec ts' ;; Ok ((k, MapValue (lit ":") (fst r)), snd r)
  | IDENT k :: EQUALS :: ts' =>
      r <- expr_rec ts' ;; Ok ((k, MapValue (lit "=") (fst r)), snd r)
  | _ => Raise ValueError
  end.

(** [pairs : pairs COMMA pair | pair], up to the closing brace with its
    optional comma *)
Fixpoint pairs_loop (n : nat) (acc : list (str * map_value))
         (ts : list token) : parsed (list (str * map_value)) :=
  match ts with
  | RBRACE :: ts' => Ok (acc, ts')
  | COMMA :: RBRACE :: ts' => Ok (acc, ts')
  | COMMA :: ts' =>
      match n with
      | 0 => Raise OutOfFuel
      | S n' =>
          r <- parse_pair ts' ;; pairs_loop n' (acc ++ [fst r]) (snd r)
      end
  | _ => Raise ValueError
  end.

(** [map], after its [LBRACE] *)
Definition parse_map (ts : list token) : parsed (list (str * map_value)) :=
  match ts with
  | RBRACE :: ts' => Ok ([], ts')
  | _ =>
      r <- parse_pair ts ;;
      ps <- pairs_loop (length ts) [fst r] (snd r) ;;
      Ok (dict_of_pairs (fst ps), snd ps)
  end.

(** [list_item : string | ident | map] *)
Definition parse_item_operand (ts : list token) : parsed expr :=
  match ts with
  | STRING v :: ts' => Ok (String v, ts')
  | IDENT v :: ts' => Ok (Ident v, ts')
  | LBRACE :: ts' => r <- parse_map ts' ;; Ok (Map (fst r), snd r)
  | _ => Raise ValueError
  end.

(** [list_item : list_item PLUS list_item], to the left *)
Fixpoint item_tail (n : nat) (lhs : expr) (ts : list token) : parsed expr :=
  match ts with
  | PLUS :: ts' =>
      match n with
      | 0 => Raise OutOfFuel
      | S n' =>
          r <- parse_item_operand ts' ;;
          item_tail n' (BinaryOperator lhs (lit "+") (fst r)) (snd r)
      end
  | _ => Ok (lhs, ts)
  end.

Definition parse_item (ts : list token) : parsed expr :=
  r <- parse_item_operand ts ;; item_tail (length ts) (fst r) (snd r).

(** [sequence : sequence COMMA list_item | list_item], up to the closing
    bracket with its optional comma *)
Fixpoint sequence_loop (n : nat) (acc : list expr) (ts : list token)
  : parsed (list expr) :=
  match ts with
  | RBRACKET :: ts' => Ok (acc, ts')
  | COMMA :: RBRACKET :: ts' => Ok (acc, ts')
  | COMMA :: ts' =>
      match n with
      | 0 => Raise OutOfFuel
      | S n' =>
          r <- parse_item ts' ;; sequence_loop n' (acc ++ [fst r]) (snd r)
      end
  | _ => Raise ValueError
  end.

(** [list], after its [LBRACKET] *)
Definition parse_list (ts : list token) : parsed (list expr) :=
  match ts with
  | RBRACKET :: ts' => Ok ([], ts')
  | _ =>
      r <- parse_item ts ;; sequence_loop (length ts) [fst r] (snd r)
  end.

(** [expr : ident | map | list | string | integer | bool] *)
Definition parse_operand (ts : list token) : parsed expr :=
  match ts with
  | IDENT v :: ts' => Ok (Ident v, ts')
  | STRING v :: ts' => Ok (String v, ts')
  | INTEGER v :: ts' => Ok (Integer (N_of_digits v), ts')
  | BOOL v :: ts' => Ok (Bool (str_eqb v (lit "true")), ts')
  | LBRACE :: ts' => r <- parse_map ts' ;; Ok (Map (fst r), snd r)
  | LBRACKET :: ts' => r <- parse_list ts' ;; Ok (List (fst r), snd r)
  | _ => Raise ValueError
  end.

(** [binary_operator : expr PLUS expr], to the left *)
Fixpoint expr_tail (n : nat) (lhs : expr) (ts : list token) : parsed expr :=
  match ts with
  | PLUS :: ts' =>
      match n with
      | 0 => Raise OutOfFuel
      | S n' =>
          r <- parse_operand ts' ;;
          expr_tail n' (BinaryOperator lhs (lit "+") (fst r)) (snd r)
      end
  | _ => Ok (lhs, ts)
  end.

Definition parse_expr_body (ts : list token) : parsed expr :=
  r <- parse_operand ts ;; expr_tail (length ts) (fst r) (snd r).
End Grammar.

Fixpoint parse_expr (fuel : nat) (ts : list token) : parsed expr :=
  match fuel with
  | 0 => Raise OutOfFuel
  | S fuel' => parse_expr_body (parse_expr fuel') ts
  end.

(** [rule : assignment | binary_operator_assignment | scope] *)
Definition parse_rule (ts : list token) : parsed rule :=
  match ts with
  | IDENT name :: EQUALS :: ts' =>
      r <- parse_expr (length ts) ts' ;; Ok (Assignment name (fst r), snd r)
  | IDENT name :: PLUS :: EQUALS :: ts' =>
      r <- parse_expr (length ts) ts' ;;
      Ok (BinaryOperatorAssignment name (lit "+=") (fst r), snd r)
  | IDENT name :: LBRACE :: ts' =>
      r <- parse_map (parse_expr (length ts)) ts' ;;
      Ok (Scope name (fst r), snd r)
  | _ => Raise ValueError
  end.

(** [ast : rules | empty] *)
Fixpoint parse_rules (n : nat) (ts : list token) : result Ast :=
  match ts with
  | [] => Ok []
  | _ =>
      match n with
      | 0 => Raise OutOfFuel
      | S n' =>
          r <- parse_rule ts ;;
          rs <- parse_rules n' (snd r) ;;
          Ok (fst r :: rs)
      end
  end.

(** [Parser.parse(tokens)] *)
Definition parse (ts : list token) : result Ast := parse_rules (length ts) ts.

(** [Ast.loads(contents)] *)
Definition loads (contents : str) : result Ast :=
  ts <- tokenize contents ;; parse ts.


(** *** recurse *)

(** What [Map.recurse] yields: key, value, depth and the map that holds
    the entry. *)
Definition entry : Type := str * map_value * Z * list (str * map_value).

(** [value.recurse(max_depth, depth)] of a value that is a map, the tuples
    in the order the generator yields them. *)
Fixpoint recurse_expr (max_depth depth : Z) (e : expr) {struct e}
  : list entry :=
  match e with
  | Map items =>
      if (depth =? max_depth)%Z then []
      else
        (fix loop (l : list (str * map_value)) : list entry :=
           match l with
           | [] => []
           | (key, value) :: rest =>
               ((key, value, (depth + 1)%Z, items)
                :: match value with
                   | MapValue _ v =>
                       if is_map v then recurse_expr max_depth (depth + 1)%Z v
                       else []
                   end)
               ++ loop rest
           end) items
  | _ => []
  end.

(** [Map.recurse(max_depth, depth)] *)
Definition map_recurse (m : list (str * map_value)) (max_depth depth : Z)
  : list entry :=
  recurse_expr max_depth depth (Map m).

(** *** str_op *)

(** [x.is_string() and x.str_op(cmp)] *)
Definition string_and (cmp : str -> bool) (x : expr) : bool :=
  match x with String s => cmp s | _ => false end.

(** [value.str_op(cmp)]: [String] and [BinaryOperator] have the method. *)
Definition str_op (cmp : str -> bool) (e : expr) : result bool :=
  match e with
  | String s => Ok (cmp s)
  | BinaryOperator lhs _ rhs => Ok (string_and cmp lhs || string_and cmp rhs)
  | _ => Raise AttributeError
  end.

End Soong.

(** ** build-system.py *)

Module BuildSystem.
Import Py Soong.

(** [lambda y: not any(i in y.lower() for i in remove)] *)
Definition keeps (remove : list str) (y : str) : bool :=
  negb (existsb (fun i => contains i (lower y)) remove).

(** [item_op(item, remove)]: the truth value returned and the item as the
    call leaves it.  [filter_map] and [filter_list] are the loops over the
    entries of a map and over the elements of a list; both return [True]. *)
Fixpoint item_op (remove : list str) (item : expr) {struct item}
  : result (bool * expr) :=
  match item with
  | Map items =>
      items' <-
        (fix filter_map (l : list (str * map_value))
           : result (list (str * map_value)) :=
           match l with
           | [] => Ok []
           | (key, MapValue d v) :: rest =>
               r <- item_op remove v ;;
               rest' <- filter_map rest ;;
               Ok (if fst r then (key, MapValue d (snd r)) :: rest'
                   else rest')
           end) items ;;
      Ok (true, Map items')
  | List l =>
      l' <-
        (fix filter_list (l : list expr) : result (list expr) :=
           match l with
           | [] => Ok []
           | x :: rest =>
               r <- item_op remove x ;;
               rest' <- filter_list rest ;;
               Ok (if fst r then snd r :: rest' else rest')
           end) l ;;
      Ok (true, List l')
  | String _ | BinaryOperator _ _ _ =>
      b <- str_op (keeps remove) item ;;
      Ok (b, item)
  | _ => Raise TypeError
  end.

(** [filter_list(lst, remove)] on the elements of a list *)
Fixpoint filter_list (remove : list str) (l : list expr)
  : result (list expr) :=
  match l with
  | [] => Ok []
  | x :: rest =>
      r <- item_op remove x ;;
      rest' <- filter_list remove rest ;;
      Ok (if fst r then snd r :: rest' else rest')
  end.

(** [filter_map(map, remove)] on the entries of a map *)
Fixpoint filter_map (remove : list str) (l : list (str * map_value))
  : result (list (str * map_value)) :=
  match l with
  | [] => Ok []
  | (key, MapValue d v) :: rest =>
      r <- item_op remove v ;;
      rest' <- filter_map remove rest ;;
      Ok (if fst r then (key, MapValue d (snd r)) :: rest' else rest')
  end.

End BuildSystem.

(** * Properties *)

Import Py.

(** ** Blueprint values: equality and classification *)

Section SoongFacts.
Import Soong.

(** C9.  Two [MapValue] nodes compare exactly as their wrapped values do,
    whatever their delimiters: [MapValue.__eq__] never reads the
    delimiter, which only picks the text written between key and value. *)
Theorem C9_map_value_eq_ignores_delimiter :
  (forall d1 d2 v1 v2,
      map_value_eq (MapValue d1 v1) (MapValue d2 v2) = expr_eq v1 v2) /\
  (forall pretty indent depth v,
      map_value_to_str pretty indent depth (MapValue (lit "=") v)
      = lit " = " ++ to_str pretty indent depth v /\
      map_value_to_str pretty indent depth (MapValue (lit ":") v)
      = lit ": " ++ to_str pretty indent depth v).
Proof.
  split.
  - intros d1 d2 v1 v2. destruct v1; reflexivity.
  - intros pretty indent depth v. split; destruct v; reflexivity.
Qed.

(** C10.  A [Map] whose [name] entry holds a string or identifier that
    contains [py2-c-module] once lowered is never a test for
    [Map.is_test], whatever else the name matches. *)
Theorem C10_py2_c_module_is_not_test :
  forall (m : list (str * map_value)) (d : str) (value : expr) (l : str),
    get m (lit "name") = Some (MapValue d value) ->
    lower_of value = Ok l ->
    contains (lit "py2-c-module") l = true ->
    map_is_test m = Ok false.
Proof.
  intros m d value l Hget Hlow Hin.
  unfold map_is_test. rewrite Hget, Hlow. unfold bind.
  rewrite Hin. rewrite Bool.andb_false_r. reflexivity.
Qed.

(** The name [py2-c-module-_ctypes_test], which the test rule alone would
    accept. *)
Definition ctypes_name : str :=
  [DQUOTE] ++ lit "py2-c-module-_ctypes_test" ++ [DQUOTE].

Lemma C10_witness :
  Util.is_test (lower ctypes_name) = true /\
  map_is_test [(lit "name", MapValue (lit ":") (String ctypes_name))]
  = Ok false.
Proof.
  split.
  - vm_compute. reflexivity.
  - apply (C10_py2_c_module_is_not_test
             [(lit "name", MapValue (lit ":") (String ctypes_name))]
             (lit ":") (String ctypes_name) (lower ctypes_name));
      vm_compute; reflexivity.
Defined.

End SoongFacts.

(** ** Blueprint pretty printer *)

Section PrettyPrinter.
Import Soong.

(** How a list renders one element: a map keeps the depth of the list,
    anything else goes one level deeper. *)
Definition fmt_element (indent depth : nat) (x : expr) : str :=
  if is_map x then to_str true indent depth x
  else to_str true indent (depth + 1) x.

Lemma fmt_elements_map (pretty : bool) (indent depth : nat) (l : list expr) :
  (fix fmt_elements (l : list expr) : list str :=
     match l with
     | [] => []
     | x :: rest =>
         (if is_map x then to_str pretty indent depth x
          else to_str pretty indent (depth + 1) x) :: fmt_elements rest
     end) l
  = map (fun x => if is_map x then to_str pretty indent depth x
                  else to_str pretty indent (depth + 1) x) l.
Proof. induction l as [|x l IH]; [reflexivity | now rewrite IH]. Qed.

Lemma fmt_items_map (pretty : bool) (indent depth : nat)
      (items : list (str * map_value)) :
  (fix fmt_items (items : list (str * map_value)) : list str :=
     match items with
     | [] => []
     | (k, v) :: rest =>
         (k ++ map_value_to_str pretty indent (depth + 1) v) :: fmt_items rest
     end) items
  = map (fun kv => fst kv ++ map_value_to_str pretty indent (depth + 1) (snd kv))
        items.
Proof.
  induction items as [|[k v] items IH]; [reflexivity | now rewrite IH].
Qed.

Lemma flat_map_map {A B C} (f : B -> list C) (g : A -> B) (l : list A) :
  flat_map f (map g l) = flat_map (fun x => f (g x)) l.
Proof. induction l as [|x l IH]; [reflexivity | simpl; now rewrite IH]. Qed.

(** The equations of [to_str] on maps and lists. *)
Lemma to_str_Map (pretty : bool) (indent depth : nat)
      (items : list (str * map_value)) :
  to_str pretty indent depth (Map items)
  = let pairs :=
      map (fun kv => fst kv ++ map_value_to_str pretty indent (depth + 1)
                                                (snd kv)) items in
    match items with
    | [] => lit "{}"
    | _ =>
        if pretty then
          lit "{" ++ [LF] ++
          flat_map (fun pair =>
            _indent indent (depth + 1) ++ pair ++ lit "," ++ [LF]) pairs ++
          _indent indent depth ++ lit "}"
        else lit "{" ++ join (lit ", ") pairs ++ lit "}"
    end.
Proof.
  cbv zeta. rewrite <- fmt_items_map. destruct items; reflexivity.
Qed.

Lemma to_str_List (pretty : bool) (indent depth : nat) (l : list expr) :
  to_str pretty indent depth (List l)
  = let elements :=
      map (fun x => if is_map x then to_str pretty indent depth x
                    else to_str pretty indent (depth + 1) x) l in
    if (length l <=? 1) || negb pretty then
      lit "[" ++ join (lit ", ") elements ++ lit "]"
    else
      lit "[" ++ [LF] ++
      flat_map (fun element =>
        _indent indent (depth + 1) ++ element ++ lit "," ++ [LF]) elements ++
      _indent indent depth ++ lit "]".
Proof.
  cbv zeta. rewrite <- fmt_elements_map. reflexivity.
Qed.

(** The text of a one-element list holding a one-entry map has a line
    break in it. *)
Definition list_of_map : expr :=
  List [Map [(lit "key", MapValue (lit ":")
                           (String ([DQUOTE] ++ lit "value" ++ [DQUOTE])))]].

(** C8, as stated, fails: a list with one element is not always on a
    single line. *)
Lemma C8_counterexample :
  ~ (forall indent depth l,
        length l <= 1 -> ~ In LF (to_str true indent depth (List l))).
Proof.
  intros H.
  apply (H 4 0 [Map [(lit "key", MapValue (lit ":")
                        (String ([DQUOTE] ++ lit "value" ++ [DQUOTE])))]]).
  - simpl. lia.
  - vm_compute. right. right. left. reflexivity.
Qed.

(** C8, amended.  In pretty mode, whatever the indent width: a list with
    no element is [[]] and a list with one element is that element between
    brackets, with no line break added by the list; a list with two or more
    elements puts every element on a line of its own, indented one level and
    followed by a comma; an empty map is [{}]; a map with entries puts every
    entry on a line of its own, indented one level and followed by a
    comma. *)
Theorem C8_pretty_thresholds :
  forall indent depth,
    to_str true indent depth (List []) = lit "[]" /\
    (forall x,
        to_str true indent depth (List [x])
        = lit "[" ++ fmt_element indent depth x ++ lit "]") /\
    (forall x y l,
        to_str true indent depth (List (x :: y :: l))
        = lit "[" ++ [LF] ++
          flat_map (fun e => _indent indent (depth + 1)
                             ++ fmt_element indent depth e ++ lit "," ++ [LF])
                   (x :: y :: l) ++
          _indent indent depth ++ lit "]") /\
    to_str true indent depth (Map []) = lit "{}" /\
    (forall kv items,
        to_str true indent depth (Map (kv :: items))
        = lit "{" ++ [LF] ++
          flat_map (fun e => _indent indent (depth + 1)
                             ++ (fst e ++ map_value_to_str true indent
                                                           (depth + 1) (snd e))
                             ++ lit "," ++ [LF])
                   (kv :: items) ++
          _indent indent depth ++ lit "}").
Proof.
  intros indent depth.
  split; [reflexivity |]. split; [intros x; reflexivity |].
  split; [| split; [reflexivity |]].
  - intros x y l. rewrite to_str_List. cbv zeta.
    cbn [length Nat.leb orb negb]. rewrite flat_map_map. reflexivity.
  - intros kv items. rewrite to_str_Map. cbv zeta.
    rewrite flat_map_map. reflexivity.
Qed.

End PrettyPrinter.

(** ** The matcher: where a search can succeed *)

Section SearchFacts.
Import Re.

(** The state [i] characters further on, as [search_from] steps to it. *)
Fixpoint adv (i : nat) (s : state) : state :=
  match i, rest s with
  | S i', c :: t => adv i' (mkState (S (pos s)) (Some c) t [])
  | _, _ => s
  end.

Lemma search_from_found (r : re) :
  forall n s,
    search_from r n s <> None ->
    exists i, i <= length (rest s) /\ match_here r (adv i s) <> None.
Proof.
  induction n as [|n IH]; intros s H; simpl in H.
  - destruct (match_here r s) eqn:E.
    + exists 0. split; [lia |]. simpl. now rewrite E.
    + now destruct H.
  - destruct (match_here r s) eqn:E.
    + exists 0. split; [lia |]. simpl. now rewrite E.
    + destruct (rest s) as [|c t] eqn:R; [now destruct H |].
      destruct (IH _ H) as [i [Hi Hm]]. simpl in Hi.
      exists (S i). split; [simpl; lia |]. simpl. now rewrite R.
Qed.

Lemma search_from_complete (r : re) :
  forall n s i,
    length (rest s) <= n -> i <= length (rest s) ->
    match_here r (adv i s) <> None ->
    search_from r n s <> None.
Proof.
  induction n as [|n IH]; intros s i Hn Hi Hm; simpl.
  - destruct (match_here r s) eqn:E; [discriminate |].
    destruct (rest s) as [|c t] eqn:R; [| simpl in Hn; lia].
    destruct i; simpl in Hm; [now rewrite E in Hm |].
    rewrite R in Hm. now rewrite E in Hm.
  - destruct (match_here r s) eqn:E; [discriminate |].
    destruct i as [|i]; [simpl in Hm; now rewrite E in Hm |].
    simpl in Hm. destruct (rest s) as [|c t] eqn:R.
    + now rewrite E in Hm.
    + apply (IH _ i); simpl in *; try lia. exact Hm.
Qed.

Lemma adv_rest : forall i s, i <= length (rest s) -> rest (adv i s) = skipn i (rest s).
Proof.
  induction i as [|i IH]; intros s Hi; [reflexivity |].
  simpl. destruct (rest s) as [|c t] eqn:R; [simpl in Hi; lia |].
  rewrite IH; simpl in *; [reflexivity | lia].
Qed.

Lemma adv_prev :
  forall i s, i < length (rest s) ->
    prev (adv (S i) s) = nth_error (rest s) i.
Proof.
  induction i as [|i IH]; intros s Hi.
  - simpl. destruct (rest s) as [|c t] eqn:R; [simpl in Hi; lia |].
    simpl. destruct t; reflexivity.
  - change (adv (S (S i)) s) with
      (match rest s with
       | c :: t => adv (S i) (mkState (S (pos s)) (Some c) t [])
       | [] => s
       end).
    destruct (rest s) as [|c t] eqn:R; [simpl in Hi; lia |].
    rewrite IH; simpl in *; [reflexivity | lia].
Qed.

(** [re.search(r, text) is not None], position by position. *)
Lemma is_match_iff (r : re) (text : str) :
  is_match r text = true <->
  exists i, i <= length text /\ match_here r (adv i (start_state text)) <> None.
Proof.
  unfold is_match, search. split.
  - intros H. destruct (search_from r (length text) (start_state text)) eqn:E;
      [| discriminate].
    apply (search_from_found r (length text) (start_state text)). now rewrite E.
  - intros [i [Hi Hm]].
    pose proof (search_from_complete r (length text) (start_state text) i) as C.
    simpl in C. specialize (C (Nat.le_refl _) Hi Hm).
    destruct (search_from r (length text) (start_state text)); [reflexivity |].
    now destruct C.
Qed.

End SearchFacts.

(** ** util.py: classification of names *)

Section Classification.
Import Re Util.

Lemma orelse_not_None {A} (a b : option A) :
  orelse a b <> None <-> a <> None \/ b <> None.
Proof.
  destruct a as [x|]; simpl; split; intros H.
  - left. discriminate.
  - discriminate.
  - now right.
  - destruct H as [H | H]; [now destruct H | exact H].
Qed.

Lemma go_Chr_not_None (p : ascii -> bool) (s : state) (k : state -> option state) :
  go (Chr p) s k <> None <->
  exists c t, rest s = c :: t /\ p c = true /\
              k (mkState (S (pos s)) (Some c) t (caps s)) <> None.
Proof.
  simpl. destruct (rest s) as [|c t].
  - split; [intros H; now destruct H | intros [c [t [H _]]]; discriminate].
  - destruct (p c) eqn:P.
    + split; [intros H; now exists c, t | intros [c' [t' [E [_ H]]]]].
      injection E as -> ->. exact H.
    + split; [intros H; now destruct H | intros [c' [t' [E [P' _]]]]].
      injection E as -> ->. congruence.
Qed.

(** A word written in lower case matches, ignoring case, exactly when the
    lowered text starts with it. *)
Lemma go_LitI_not_None :
  forall (w : str) (s : state),
    forallb (fun c => Ascii.eqb (lower_char c) c) w = true ->
    (go (LitI w) s (fun s1 => Some s1) <> None <->
     startswith w (lower (rest s)) = true).
Proof.
  intros w s Hw.
  assert (G : forall (k : state -> option state),
             (forall s1, k s1 <> None) ->
             forall s, go (LitI w) s k <> None <->
                       startswith w (lower (rest s)) = true).
  { clear s. induction w as [|c w IH]; intros k Hk s.
    - simpl. split; [reflexivity | intros _; apply Hk].
    - simpl in Hw. apply andb_prop in Hw as [Hc Hw].
      apply Ascii.eqb_eq in Hc.
      change (go (LitI (c :: w)) s k)
        with (go (CharI c) s (fun s1 => go (LitI w) s1 k)).
      unfold CharI. rewrite go_Chr_not_None. split.
      + intros [x [t [R [E H]]]]. rewrite R. simpl.
        apply (IH Hw k Hk) in H. simpl in H. rewrite H.
        rewrite Hc in E. apply Ascii.eqb_eq in E. rewrite E.
        now rewrite Ascii.eqb_refl.
      + destruct (rest s) as [|x t] eqn:R; simpl; [discriminate |].
        intros H. apply andb_prop in H as [E H].
        exists x, t. split; [reflexivity |]. split.
        * apply Ascii.eqb_eq in E. rewrite Hc, <- E. apply Ascii.eqb_refl.
        * apply (IH Hw k Hk). exact H. }
  apply G. discriminate.
Qed.

(** The lowered text starts with [p] exactly when the text starts with some
    spelling of [p]. *)
Lemma startswith_lower_iff :
  forall (p r : str),
    startswith p (lower r) = true <->
    exists w post, r = w ++ post /\ lower w = p.
Proof.
  induction p as [|c p IH]; intros r.
  - simpl. split; [intros _; now exists [], r | reflexivity].
  - destruct r as [|x r]; simpl.
    + split; [discriminate |]. intros [w [post [E L]]].
      destruct w; [discriminate L | discriminate E].
    + split.
      * intros H. apply andb_prop in H as [E H].
        apply Ascii.eqb_eq in E. apply IH in H as [w [post [-> L]]].
        exists (x :: w), post. split; [reflexivity |].
        unfold lower in *. simpl. now rewrite L, E.
      * intros [w [post [E L]]]. destruct w as [|y w]; [discriminate L |].
        unfold lower in *. simpl in E, L. injection E as -> ->.
        injection L as -> L.
        rewrite Ascii.eqb_refl. simpl. apply IH. now exists w, post.
Qed.

(** A word sits in [s] behind a boundary: at the very start, or right after
    a character that [ok] accepts. *)
Definition word_after (ok : ascii -> bool) (word s : str) : Prop :=
  exists pre w post,
    s = pre ++ w ++ post /\ lower w = word /\
    (pre = [] \/ exists pre' c, pre = pre' ++ [c] /\ ok c = true).

(** Where a pattern of the shape of [test_pattern] can match. *)
Definition hit (ok : ascii -> bool) (word : str) (s : state) : Prop :=
  (prev s = None /\ startswith word (lower (rest s)) = true) \/
  (exists c t, rest s = c :: t /\ ok c = true /\
               startswith word (lower t) = true).

Lemma hit_word_after (ok : ascii -> bool) (word text : str) :
  (exists i, i <= length text /\ hit ok word (adv i (start_state text))) <->
  word_after ok word text.
Proof.
  split.
  - intros [i [Hi [[Hp Hs] | [c [t [R [Hc Hs]]]]]]].
    + destruct i as [|i].
      * simpl in Hs. apply startswith_lower_iff in Hs as [w [post [E L]]].
        exists [], w, post. auto.
      * destruct (Nat.eq_dec (S i) (S (length text))) as [E | NE]; [lia |].
        rewrite adv_prev in Hp by (simpl; lia). simpl in Hp.
        apply nth_error_None in Hp. lia.
    + rewrite adv_rest in R by exact Hi. simpl in R.
      apply startswith_lower_iff in Hs as [w [post [E L]]].
      exists (firstn i text ++ [c]), w, post. split; [| split; [exact L |]].
      * rewrite <- (firstn_skipn i text) at 1. rewrite R, E.
        now rewrite <- app_assoc.
      * right. now exists (firstn i text), c.
  - intros [pre [w [post [E [L [-> | [pre' [c [-> Hc]]]]]]]]].
    + exists 0. split; [lia |]. left. split; [reflexivity |].
      simpl. apply startswith_lower_iff. now exists w, post.
    + exists (length pre'). split.
      * rewrite E. rewrite !length_app. lia.
      * right. exists c, (w ++ post). split; [| split; [exact Hc |]].
        -- rewrite adv_rest; simpl.
           ++ rewrite E, <- app_assoc. now rewrite skipn_app, skipn_all,
                Nat.sub_diag.
           ++ rewrite E, !length_app. lia.
        -- apply startswith_lower_iff. now exists w, post.
Qed.

Lemma match_here_not_None (r : re) (s : state) :
  match_here r s <> None <-> go r s (fun s1 => Some s1) <> None.
Proof.
  unfold match_here. destruct (go r s (fun s1 => Some s1)); split; intros H;
    try discriminate; now destruct H.
Qed.

Lemma at_bol_false (s : state) :
  at_bol false s = true <-> prev s = None.
Proof.
  unfold at_bol. destruct (prev s); simpl; split; intros H;
    try reflexivity; discriminate.
Qed.

(** What may stand before [test]: anything but a letter or a digit, or a
    [g] in either case. *)
Definition before_test (c : ascii) : bool :=
  negb (is_alnum c) || Ascii.eqb (lower_char c) "g".

(** What may stand before [benchmark]: anything but a letter or a digit. *)
Definition before_benchmark (c : ascii) : bool := negb (is_alnum c).

Lemma test_pattern_hit (s : state) :
  match_here test_pattern s <> None <-> hit before_test (lit "test") s.
Proof.
  rewrite match_here_not_None. unfold test_pattern, hit.
  change (go (Cat (Alt (Bol false)
                       (Alt (Chr (fun c => negb (is_alnum c))) (CharI "g")))
                  (LitI (lit "test"))) s (fun s1 => Some s1))
    with (orelse
            (if at_bol false s
             then go (LitI (lit "test")) s (fun s1 => Some s1) else None)
            (orelse
               (go (Chr (fun c => negb (is_alnum c))) s
                   (fun s1 => go (LitI (lit "test")) s1 (fun s2 => Some s2)))
               (go (CharI "g") s
                   (fun s1 => go (LitI (lit "test")) s1 (fun s2 => Some s2))))).
  rewrite !orelse_not_None. unfold CharI.
  change (lower_char "g") with "g"%char. rewrite !go_Chr_not_None.
  split.
  - intros [H | [[c [t [R [P H]]]] | [c [t [R [P H]]]]]].
    + left. destruct (at_bol false s) eqn:B; [| now destruct H].
      apply at_bol_false in B. split; [exact B |].
      now apply go_LitI_not_None in H.
    + right. exists c, t. split; [exact R |]. split.
      * unfold before_test. now rewrite P.
      * now apply go_LitI_not_None in H.
    + right. exists c, t. split; [exact R |]. split.
      * unfold before_test. rewrite P. apply orb_true_r.
      * now apply go_LitI_not_None in H.
  - intros [[B H] | [c [t [R [P H]]]]].
    + left. apply at_bol_false in B. rewrite B.
      now apply go_LitI_not_None.
    + right. unfold before_test in P. apply orb_prop in P as [P | P].
      * left. exists c, t. split; [exact R |]. split; [exact P |].
        now apply go_LitI_not_None.
      * right. exists c, t. split; [exact R |]. split; [exact P |].
        now apply go_LitI_not_None.
Qed.

Lemma benchmark_pattern_hit (s : state) :
  match_here benchmark_pattern s <> None <->
  hit before_benchmark (lit "benchmark") s.
Proof.
  rewrite match_here_not_None. unfold benchmark_pattern, hit.
  change (go (Cat (Alt (Bol false) (Chr (fun c => negb (is_alnum c))))
                  (LitI (lit "benchmark"))) s (fun s1 => Some s1))
    with (orelse
            (if at_bol false s
             then go (LitI (lit "benchmark")) s (fun s1 => Some s1) else None)
            (go (Chr (fun c => negb (is_alnum c))) s
                (fun s1 => go (LitI (lit "benchmark")) s1 (fun s2 => Some s2)))).
  rewrite orelse_not_None, go_Chr_not_None.
  split.
  - intros [H | [c [t [R [P H]]]]].
    + left. destruct (at_bol false s) eqn:B; [| now destruct H].
      apply at_bol_false in B. split; [exact B |].
      now apply go_LitI_not_None in H.
    + right. exists c, t. split; [exact R |]. split; [exact P |].
      now apply go_LitI_not_None in H.
  - intros [[B H] | [c [t [R [P H]]]]].
    + left. apply at_bol_false in B. rewrite B.
      now apply go_LitI_not_None.
    + right. exists c, t. split; [exact R |]. split; [exact P |].
      now apply go_LitI_not_None.
Qed.

Lemma exists_iff {A} (P Q : A -> Prop) :
  (forall x, P x <-> Q x) -> (exists x, P x) <-> (exists x, Q x).
Proof.
  intros H. split; intros [x Hx]; exists x; now apply H.
Qed.

(** C6.  The seven names of the specification are classified as it says.
    In general [is_test] accepts a name exactly when the name does not
    contain [non-test] and holds [test], in any case, at its very start or
    right after a character that is no letter or digit, or after a [g];
    [is_benchmark] accepts a name exactly when it holds [benchmark], in any
    case, at its very start or right after a character that is no letter or
    digit, so that a [g] before it does not count. *)
Theorem C6_classification :
  is_test (lit "art-tests") = true /\
  is_test (lit "libgtest") = true /\
  is_test (lit "libgtest_main") = true /\
  is_test (lit "lib-non-test-defaults") = false /\
  is_benchmark (lit "benchmarks") = true /\
  is_benchmark (lit "-benchmarks") = true /\
  is_benchmark (lit "gbenchmarks") = false /\
  (forall s,
      is_test s = true <->
      contains (lit "non-test") (lower s) = false /\
      word_after before_test (lit "test") s) /\
  (forall s,
      is_benchmark s = true <->
      word_after before_benchmark (lit "benchmark") s).
Proof.
  repeat (split; [vm_compute; reflexivity |]).
  split.
  - intros s. unfold is_test, _is_match.
    destruct (contains (lit "non-test") (lower s)).
    + split; [discriminate | intros [H _]; discriminate].
    + rewrite is_match_iff, <- hit_word_after.
      split.
      * intros [i [Hi H]]. split; [reflexivity |].
        exists i. split; [exact Hi |]. now apply test_pattern_hit.
      * intros [_ [i [Hi H]]]. exists i. split; [exact Hi |].
        now apply test_pattern_hit.
  - intros s. unfold is_benchmark, _is_match.
    rewrite is_match_iff, <- hit_word_after.
    split; intros [i [Hi H]]; exists i; (split; [exact Hi |]);
      now apply benchmark_pattern_hit.
Qed.

End Classification.

(** ** Filtering *)

Section MakeInduction.
Import Make.

Variable P : node -> Prop.
Hypothesis HBlock : forall s, P (Block s).
Hypothesis HBlockList : forall l, Forall P l -> P (BlockList l).
Hypothesis HComment : forall c t child, P child -> P (CommentBlock c t child).
Hypothesis HDirective :
  forall s e child, P child -> P (DirectiveBlock s e child).

(** Induction over a node and the nodes of its lists. *)
Fixpoint node_induction (n : node) : P n :=
  match n with
  | Block s => HBlock s
  | BlockList l =>
      HBlockList l
        ((fix all (l : list node) : Forall P l :=
            match l with
            | [] => Forall_nil P
            | x :: l' => Forall_cons x (node_induction x) (all l')
            end) l)
  | CommentBlock c t child => HComment c t child (node_induction child)
  | DirectiveBlock s e child => HDirective s e child (node_induction child)
  end.

End MakeInduction.

Section MakeFilter.
Import Make.

(** A node after a filter: nodes of its lists may be gone, at any depth;
    nothing is added or reordered. *)
Inductive pruned : node -> node -> Prop :=
| pruned_Block : forall s, pruned (Block s) (Block s)
| pruned_BlockList : forall l l',
    pruned_list l l' -> pruned (BlockList l) (BlockList l')
| pruned_Comment : forall c t child child',
    pruned child child' ->
    pruned (CommentBlock c t child) (CommentBlock c t child')
| pruned_Directive : forall s e child child',
    pruned child child' ->
    pruned (DirectiveBlock s e child) (DirectiveBlock s e child')
with pruned_list : list node -> list node -> Prop :=
| pruned_nil : pruned_list [] []
| pruned_drop : forall x l l', pruned_list l l' -> pruned_list (x :: l) l'
| pruned_keep : forall x x' l l',
    pruned x x' -> pruned_list l l' -> pruned_list (x :: l) (x' :: l').

(** The verdict of [op] on a comment or directive block does not depend on
    the child of the block. *)
Definition child_blind (op : node -> bool) : Prop :=
  (forall c t child child',
      op (CommentBlock c t child) = op (CommentBlock c t child')) /\
  (forall s e child child',
      op (DirectiveBlock s e child) = op (DirectiveBlock s e child')).

Variable op : node -> bool.

Lemma filter_node_BlockList (l : list node) :
  filter_node op (BlockList l)
  = (match _filter_list op l with [] => false | _ => true end,
     BlockList (_filter_list op l)).
Proof.
  assert (E : (fix filter_list (l : list node) : list node :=
                 match l with
                 | [] => []
                 | i :: l0 =>
                     let (keep, i') := filter_node op i in
                     if keep then i' :: filter_list l0 else filter_list l0
                 end) l = _filter_list op l).
  { induction l as [|x l IH]; [reflexivity |].
    simpl. destruct (filter_node op x) as [keep x']. now rewrite IH. }
  simpl. now rewrite E.
Qed.

Lemma pruned_refl : forall n, pruned n n.
Proof.
  induction n as [s | l IH | c t child IH | s e child IH] using node_induction;
    constructor; try assumption.
  induction IH; constructor; assumption.
Qed.

Lemma filter_node_pruned : forall n, pruned n (snd (filter_node op n)).
Proof.
  induction n as [s | l IH | c t child IH | s e child IH] using node_induction.
  - constructor.
  - rewrite filter_node_BlockList. simpl. constructor.
    induction IH as [|x l Hx _ IHl]; [constructor |].
    simpl. destruct (filter_node op x) as [keep x'] eqn:E.
    simpl in Hx. destruct keep; constructor; assumption.
  - simpl. destruct (op (CommentBlock c t child)).
    + destruct (filter_node op child) as [keep child']. simpl in *.
      now constructor.
    + apply pruned_refl.
  - simpl. destruct (op (DirectiveBlock s e child)).
    + destruct (filter_node op child) as [keep child']. simpl in *.
      now constructor.
    + apply pruned_refl.
Qed.

Lemma _filter_list_pruned : forall l, pruned_list l (_filter_list op l).
Proof.
  induction l as [|x l IH]; [constructor |].
  simpl. pose proof (filter_node_pruned x) as Hx.
  destruct (filter_node op x) as [keep x']. simpl in Hx.
  destruct keep; constructor; assumption.
Qed.

Hypothesis Hblind : child_blind op.

Lemma filter_node_twice :
  forall n,
    fst (filter_node op n) = true ->
    filter_node op (snd (filter_node op n)) = (true, snd (filter_node op n)).
Proof.
  destruct Hblind as [HC HD].
  induction n as [s | l IH | c t child IH | s e child IH] using node_induction.
  - simpl. intros H. now rewrite H.
  - rewrite filter_node_BlockList. cbn [fst snd]. intros H.
    rewrite filter_node_BlockList.
    assert (E : _filter_list op (_filter_list op l) = _filter_list op l).
    { clear H. induction IH as [|x l Hx _ IHl]; [reflexivity |].
      simpl. destruct (filter_node op x) as [keep x'] eqn:Ex.
      simpl in Hx. destruct keep; [| exact IHl].
      simpl. rewrite (Hx eq_refl). now rewrite IHl. }
    rewrite E. now rewrite H.
  - simpl. destruct (op (CommentBlock c t child)) eqn:O.
    + destruct (filter_node op child) as [keep child'] eqn:F. simpl in *.
      intros ->. rewrite (HC c t child' child), O.
      now rewrite (IH eq_refl).
    + discriminate.
  - simpl. destruct (op (DirectiveBlock s e child)) eqn:O.
    + destruct (filter_node op child) as [keep child'] eqn:F. simpl in *.
      intros ->. rewrite (HD s e child' child), O.
      now rewrite (IH eq_refl).
    + discriminate.
Qed.

Lemma _filter_list_twice :
  forall l, _filter_list op (_filter_list op l) = _filter_list op l.
Proof.
  induction l as [|x l IH]; [reflexivity |].
  simpl. pose proof (filter_node_twice x) as Hx.
  destruct (filter_node op x) as [keep x']. simpl in Hx.
  destruct keep; [| exact IH].
  simpl. rewrite (Hx eq_refl). now rewrite IH.
Qed.

End MakeFilter.

Section SoongFilter.

(** [l'] is [l] with some elements left out, the others in their order. *)
Inductive subsequence {A} : list A -> list A -> Prop :=
| subsequence_nil : subsequence [] []
| subsequence_drop : forall x l l', subsequence l' l -> subsequence l' (x :: l)
| subsequence_keep : forall x l l',
    subsequence l' l -> subsequence (x :: l') (x :: l).

Lemma filter_subsequence {A} (f : A -> bool) (l : list A) :
  subsequence (List.filter f l) l.
Proof.
  induction l as [|x l IH]; [constructor |].
  simpl. destruct (f x); constructor; assumption.
Qed.

Lemma filter_twice {A} (f : A -> bool) (l : list A) :
  List.filter f (List.filter f l) = List.filter f l.
Proof.
  induction l as [|x l IH]; [reflexivity |].
  simpl. destruct (f x) eqn:E; [| exact IH].
  simpl. now rewrite E, IH.
Qed.

End SoongFilter.

Section FilterClaim.
Import Soong.

(** A predicate that looks into the child of a comment block: it keeps a
    comment block with two children, and the text [keep]. *)
Definition two_children (n : Make.node) : bool :=
  match n with
  | Make.CommentBlock _ _ (Make.BlockList [_; _]) => true
  | Make.Block s => str_eqb s (lit "keep")
  | _ => false
  end.

Definition two_children_tree : Make.Makefile :=
  [Make.CommentBlock (lit "######") (lit "")
     (Make.BlockList [Make.Block (lit "keep"); Make.Block (lit "drop")])].

(** C5, as stated, fails on makefile trees: the first pass removes a child
    the predicate relied on, and the second pass removes the parent. *)
Lemma C5_counterexample :
  ~ (forall op m, Make.filter op (Make.filter op m) = Make.filter op m).
Proof.
  intros H. specialize (H two_children two_children_tree).
  vm_compute in H. discriminate H.
Qed.

(** C5, amended.  Filtering a blueprint [Ast], [List] or [Map] twice with
    one predicate gives what filtering once gives, and what is left is a
    subsequence of the original.  For a makefile [Makefile] or [BlockList],
    filtering twice gives what filtering once gives when the predicate
    judges a comment or directive block without looking at its child; and
    with any predicate at all, the filtered makefile tree is the original
    with nodes left out, nothing added or reordered. *)
Theorem C5_filter_idempotent_ordered :
  forall (op : Make.node -> bool) (m : Make.Makefile)
         (rule_op : rule -> bool) (a : Ast)
         (item_op : expr -> bool) (l : list expr)
         (pair_op : str -> map_value -> bool) (d : list (str * map_value)),
    (child_blind op ->
     Make.filter op (Make.filter op m) = Make.filter op m) /\
    pruned_list m (Make.filter op m) /\
    (ast_filter rule_op (ast_filter rule_op a) = ast_filter rule_op a /\
     subsequence (ast_filter rule_op a) a) /\
    (list_filter item_op (list_filter item_op l) = list_filter item_op l /\
     subsequence (list_filter item_op l) l) /\
    (map_filter pair_op (map_filter pair_op d) = map_filter pair_op d /\
     subsequence (map_filter pair_op d) d).
Proof.
  intros op m rule_op a item_op l pair_op d.
  unfold Make.filter, ast_filter, list_filter, map_filter.
  split; [| split].
  - intros Hblind. apply _filter_list_twice. exact Hblind.
  - apply _filter_list_pruned.
  - split; [| split]; (split; [apply filter_twice | apply filter_subsequence]).
Qed.

(** The predicate of the build script: drop what is classified as test or
    benchmark. *)
Definition not_dev (n : Make.node) : bool := negb (Make.is_dev n).

Definition sections : Make.Makefile :=
  [Make.Block (lit "LOCAL_PATH := $(call my-dir)");
   Make.CommentBlock (lit "######") (lit "Unit tests.")
     (Make.Block (lit "test_tags := tests"));
   Make.CommentBlock (lit "######") (lit "Other section.")
     (Make.BlockList [Make.Block (lit "a"); Make.Block (lit "b")])].

Lemma C5_witness :
  child_blind not_dev /\
  Make.filter not_dev (Make.filter not_dev sections)
  = Make.filter not_dev sections /\
  pruned_list two_children_tree (Make.filter two_children two_children_tree).
Proof.
  assert (H : child_blind not_dev) by (split; intros; reflexivity).
  split; [exact H |]. split.
  - exact (proj1 (C5_filter_idempotent_ordered
                    not_dev sections (fun _ => true) []
                    (fun _ => true) [] (fun _ _ => true) []) H).
  - exact (proj1 (proj2 (C5_filter_idempotent_ordered
                           two_children two_children_tree (fun _ => true) []
                           (fun _ => true) [] (fun _ _ => true) []))).
Defined.

End FilterClaim.

(** ** Makefile: the directive pass *)

Section JoinFacts.

Lemma join_cons (sep x : str) (l : list str) :
  l <> [] -> join sep (x :: l) = x ++ sep ++ join sep l.
Proof. destruct l; [congruence | reflexivity]. Qed.

Lemma join_app (sep : str) (xs ys : list str) :
  xs <> [] -> ys <> [] ->
  join sep (xs ++ ys) = join sep xs ++ sep ++ join sep ys.
Proof.
  induction xs as [|x xs IH]; intros Hx Hy; [congruence |].
  destruct xs as [|x' xs].
  - simpl app. now rewrite join_cons.
  - change ((x :: x' :: xs) ++ ys) with (x :: ((x' :: xs) ++ ys)).
    rewrite join_cons by (simpl; discriminate).
    rewrite IH by (auto; discriminate).
    rewrite (join_cons sep x (x' :: xs)) by discriminate.
    now rewrite <- !app_assoc.
Qed.

(** A piece that is itself a join can be replaced by its parts. *)
Lemma join_flatten (sep : str) (ps cs qs : list str) :
  cs <> [] ->
  join sep (ps ++ [join sep cs] ++ qs) = join sep (ps ++ cs ++ qs).
Proof.
  intros Hc.
  assert (T : join sep ([join sep cs] ++ qs) = join sep (cs ++ qs)).
  { destruct qs as [|q qs]; [rewrite !app_nil_r; reflexivity |].
    rewrite join_app by discriminate.
    now rewrite join_app by (assumption || discriminate). }
  destruct ps as [|p ps]; [exact T |].
  rewrite !(join_app sep (p :: ps));
    try discriminate; try (destruct cs; [congruence | discriminate]).
  now rewrite T.
Qed.

End JoinFacts.

Section DirectivePass.
Import Make.

(** Every directive block has something between its start and its end. *)
Fixpoint bodies (n : node) : bool :=
  match n with
  | Block _ => true
  | BlockList l => forallb bodies l
  | CommentBlock _ _ child => bodies child
  | DirectiveBlock _ _ child =>
      match child with
      | BlockList [] => false
      | _ => bodies child
      end
  end.

Definition opt_line (e : option str) : list str :=
  match e with Some x => [x] | None => [] end.

Lemma to_str_flatten1 (n : node) : to_str (flatten1 n) = to_str n.
Proof. destruct n as [| [|x [|y l]] | |]; reflexivity. Qed.

Lemma bodies_flatten1 (n : node) : bodies (flatten1 n) = bodies n.
Proof.
  destruct n as [| [|x [|y l]] | |]; try reflexivity.
  simpl. now rewrite andb_true_r.
Qed.

Lemma split_loop_eq (fuel : nat) (in_scope : bool) (blocks : list node)
      (current lines : list str) :
  split_loop (S fuel) in_scope blocks current lines
  = match lines with
    | [] => Some (add_current blocks current, None, [])
    | line :: lines' =>
        if startswith_any start_directives (lstrip line) then
          match split_loop fuel true [] [] lines' with
          | None => None
          | Some (child, end_, lines'') =>
              split_loop fuel in_scope
                (add_current blocks current ++
                 [flatten_single
                    (new_DirectiveBlock line end_ (BlockList child))])
                [] lines''
          end
        else if in_scope && startswith_any end_directives (lstrip line) then
          Some (add_current blocks current, Some line, lines')
        else split_loop fuel in_scope blocks (current ++ [line]) lines'
    end.
Proof. reflexivity. Qed.

(** With enough fuel the loop of [_split_directives] returns. *)
Lemma split_loop_total :
  forall fuel in_scope blocks current lines,
    length lines < fuel ->
    exists bl e rest,
      split_loop fuel in_scope blocks current lines = Some (bl, e, rest) /\
      length rest <= length lines.
Proof.
  induction fuel as [|fuel IH]; intros sc blocks current lines Hf; [lia |].
  rewrite split_loop_eq. destruct lines as [|line lines].
  - now exists (add_current blocks current), None, [].
  - simpl in Hf.
    destruct (startswith_any start_directives (lstrip line)).
    + destruct (IH true [] [] lines) as [child [e1 [r1 [E1 L1]]]]; [lia |].
      rewrite E1.
      destruct (IH sc (add_current blocks current ++
                       [flatten_single
                          (new_DirectiveBlock line e1 (BlockList child))])
                   [] r1) as [bl [e [rest [E L]]]]; [lia |].
      exists bl, e, rest. split; [exact E | simpl; lia].
    + destruct (sc && startswith_any end_directives (lstrip line)).
      * exists (add_current blocks current), (Some line), lines.
        split; [reflexivity | simpl; lia].
      * destruct (IH sc blocks (current ++ [line]) lines)
          as [bl [e [rest [E L]]]]; [lia |].
        exists bl, e, rest. split; [exact E | simpl; lia].
Qed.

(** [_split_directives] always returns. *)
Lemma _split_directives_total (lines : list str) (in_scope : bool) :
  exists blocks e, _split_directives lines in_scope = Some (blocks, e).
Proof.
  unfold _split_directives, _split_directives_fuel.
  destruct (split_loop_total (S (length lines)) in_scope [] [] lines)
    as [bl [e [rest [E _]]]]; [lia |].
  rewrite E. now exists bl, e.
Qed.

End DirectivePass.

Section UnbalancedDirective.
Import Make.

(** An [ifeq] that is never closed, whose body is one comment header. *)
Definition open_header : str :=
  join [LF] [lit "ifeq x"; lit "######"; lit "# A"].

(** C4.  On [open_header] the directive pass succeeds and leaves the end of
    the block absent, but [Makefile.loads] raises [NotImplementedError]:
    [split_comments] flattens the body to a single [CommentBlock], on which
    [DirectiveBlock.group_comments] then calls [group_comments].  An
    unclosed [ifneq] with a plain body parses as the claim says. *)
Theorem C4_unbalanced_directive_raises :
  _split_directives (splitlines open_header) false
  = Some ([DirectiveBlock (lit "ifeq x") None
             (Block (join [LF] [lit "######"; lit "# A"]))], None) /\
  loads open_header = Raise NotImplementedError /\
  loads (join [LF] [lit "ifneq (a,)"; lit "b"])
  = Ok [DirectiveBlock (lit "ifneq (a,)") None (Block (lit "b"))].
Proof. repeat split; vm_compute; reflexivity. Qed.

End UnbalancedDirective.

(** ** Makefile: grouping under comment headers *)

Section Grouping.
Import Make.

Lemma group_comments_BlockList (l : list node) :
  group_comments (BlockList l)
  = l' <- _group_comments l ;; Ok (BlockList l').
Proof. reflexivity. Qed.

(** The state of the loop of [_group_comments] after some blocks. *)
Fixpoint group_state (result_ : list node) (current : node)
         (blocks : list node) : result (list node * node) :=
  match blocks with
  | [] => Ok (result_, current)
  | block :: blocks' =>
      _ <- assert (negb (is_comment block) ||
                   match block with
                   | CommentBlock _ _ (Block _) => true
                   | _ => false
                   end) ;;
      _ <- assert (negb (is_block_list block)) ;;
      match block with
      | CommentBlock c t child =>
          group_state (close_current result_ current) (new_group c t child)
                      blocks'
      | _ =>
          block' <- group_comments block ;;
          group_state result_ (append_current current block') blocks'
      end
  end.

Lemma group_loop_app :
  forall a b result_ current,
    group_loop group_comments result_ current (a ++ b)
    = st <- group_state result_ current a ;;
      group_loop group_comments (fst st) (snd st) b.
Proof.
  induction a as [|x a IH]; intros b r c; [reflexivity |].
  cbn [app group_loop group_state].
  destruct (assert _); cbn [bind]; [| reflexivity].
  destruct (assert _); cbn [bind]; [| reflexivity].
  destruct x; try apply IH;
    destruct (group_comments _); cbn [bind]; try reflexivity; apply IH.
Qed.

Lemma close_current_app (r : list node) (c : node) :
  close_current r c = r ++ close_current [] c.
Proof. destruct c; reflexivity. Qed.

(** What is already in [result_] stays in front. *)
Lemma group_loop_result :
  forall blocks result_ current,
    group_loop group_comments result_ current blocks
    = out <- group_loop group_comments [] current blocks ;;
      Ok (result_ ++ out).
Proof.
  induction blocks as [|x blocks IH]; intros r c.
  - cbn [group_loop bind]. now rewrite close_current_app.
  - cbn [group_loop].
    destruct (assert _); cbn [bind]; [| reflexivity].
    destruct (assert _); cbn [bind]; [| reflexivity].
    assert (A : forall cur,
               group_loop group_comments (close_current r c) cur blocks
               = out <- group_loop group_comments (close_current [] c) cur blocks ;;
                 Ok (r ++ out)).
    { intros cur. rewrite (IH (close_current r c)).
      rewrite (IH (close_current [] c)).
      destruct (group_loop group_comments [] cur blocks); cbn [bind];
        [| reflexivity].
      now rewrite (close_current_app r c), app_assoc. }
    destruct x; try apply A;
      destruct (group_comments _); cbn [bind]; try reflexivity; apply IH.
Qed.

Lemma bind_Ok {A B} (m : result A) (f : A -> result B) (b : B) :
  bind m f = Ok b -> exists a, m = Ok a /\ f a = Ok b.
Proof. destruct m as [a | e]; [now exists a | discriminate]. Qed.

(** While a comment block is current, it is the next block to come out. *)
Lemma group_loop_comment_first :
  forall post c t kids tail,
    group_loop group_comments [] (CommentBlock c t (BlockList kids)) post
    = Ok tail ->
    exists Y tail', tail = CommentBlock c t Y :: tail'.
Proof.
  induction post as [|x post IH]; intros c t kids tail H.
  - cbn in H. injection H as <-. eauto.
  - cbn [group_loop] in H.
    apply bind_Ok in H as [_ [_ H]]. apply bind_Ok in H as [_ [_ H]].
    destruct x as [s | l | c0 t0 child | s e child].
    + apply bind_Ok in H as [b [_ H]]. now apply IH in H.
    + apply bind_Ok in H as [b [_ H]]. now apply IH in H.
    + rewrite group_loop_result in H. apply bind_Ok in H as [out [_ H]].
      injection H as <-. cbn. eauto.
    + apply bind_Ok in H as [b [_ H]]. now apply IH in H.
Qed.

(** C3.  When the sequence handed to [_group_comments] holds a comment
    header, then a directive block, then another comment header, the grouped
    sequence is: what the blocks before the first header group to; the first
    header, whose child is the directive block (after its own grouping),
    alone or behind the text of the header; the second header and what
    follows.  The two headers stand side by side in the result and the
    directive block is found below the first one. *)
Theorem C3_directive_grouped_under_header :
  forall pre post c1 t1 d1 s e child c2 t2 d2 out,
    _group_comments
      (pre ++ [CommentBlock c1 t1 (Block d1); DirectiveBlock s e child;
               CommentBlock c2 t2 (Block d2)] ++ post) = Ok out ->
    exists out1 D X Y tail,
      _group_comments pre = Ok out1 /\
      group_comments (DirectiveBlock s e child) = Ok D /\
      group_loop group_comments [] (new_group c2 t2 (Block d2)) post
      = Ok (CommentBlock c2 t2 Y :: tail) /\
      out = out1 ++ [CommentBlock c1 t1 X; CommentBlock c2 t2 Y] ++ tail /\
      (X = D \/ X = BlockList [Block d1; D]).
Proof.
  intros pre post c1 t1 d1 s e child c2 t2 d2 out H.
  unfold _group_comments in *. rewrite group_loop_app in H.
  apply bind_Ok in H as [[r1 cur1] [Hpre H]]. cbn [fst snd] in H.
  assert (Hout1 : group_loop group_comments [] (BlockList []) pre
                  = Ok (close_current r1 cur1)).
  { rewrite <- (app_nil_r pre), group_loop_app, Hpre. reflexivity. }
  cbn [app group_loop is_comment is_block_list negb orb assert bind] in H.
  apply bind_Ok in H as [D [HD H]].
  cbn [group_loop is_comment is_block_list negb orb assert bind] in H.
  rewrite group_loop_result in H. apply bind_Ok in H as [tail0 [Htail H]].
  injection H as <-.
  destruct (group_loop_comment_first _ _ _ _ _ Htail) as [Y [tail ->]].
  exists (close_current r1 cur1), D.
  destruct d1 as [|a d1].
  - exists D, Y, tail. repeat split; auto.
    cbn. now rewrite <- app_assoc.
  - exists (BlockList [Block (a :: d1); D]), Y, tail. repeat split; auto.
    cbn. now rewrite <- app_assoc.
Qed.

(** Two sections with a conditional between them. *)
Definition header_of (title : string) : str :=
  join [LF] [lit "# -----"; lit title; lit "# -----"].

Definition two_sections : list node :=
  [Block (lit "x");
   CommentBlock (header_of "# Section 1") (lit "Section 1") (Block []);
   DirectiveBlock (lit "ifneq (a,)") (Some (lit "endif")) (Block (lit "b"));
   CommentBlock (header_of "# Section 2") (lit "Section 2") (Block (lit "c"))].

Definition two_sections_grouped : list node :=
  [Block (lit "x");
   CommentBlock (header_of "# Section 1") (lit "Section 1")
     (DirectiveBlock (lit "ifneq (a,)") (Some (lit "endif")) (Block (lit "b")));
   CommentBlock (header_of "# Section 2") (lit "Section 2") (Block (lit "c"))].

Lemma C3_witness :
  loads (join [LF] [lit "x"; header_of "# Section 1"; lit "ifneq (a,)";
                    lit "b"; lit "endif"; header_of "# Section 2"; lit "c"])
  = Ok two_sections_grouped /\
  _group_comments two_sections = Ok two_sections_grouped /\
  exists out1 D X Y tail,
    _group_comments [Block (lit "x")] = Ok out1 /\
    group_comments
      (DirectiveBlock (lit "ifneq (a,)") (Some (lit "endif")) (Block (lit "b")))
    = Ok D /\
    group_loop group_comments []
      (new_group (header_of "# Section 2") (lit "Section 2") (Block (lit "c")))
      []
    = Ok (CommentBlock (header_of "# Section 2") (lit "Section 2") Y :: tail) /\
    two_sections_grouped
    = out1 ++ [CommentBlock (header_of "# Section 1") (lit "Section 1") X;
               CommentBlock (header_of "# Section 2") (lit "Section 2") Y]
           ++ tail /\
    (X = D \/ X = BlockList [Block []; D]).
Proof.
  split; [vm_compute; reflexivity |].
  split; [vm_compute; reflexivity |].
  apply (C3_directive_grouped_under_header
           [Block (lit "x")] [] (header_of "# Section 1") (lit "Section 1") []
           (lit "ifneq (a,)") (Some (lit "endif")) (Block (lit "b"))
           (header_of "# Section 2") (lit "Section 2") (lit "c")
           two_sections_grouped).
  vm_compute. reflexivity.
Defined.

End Grouping.

(** ** Makefile: the text of the directive pass *)

Section DirectiveText.
Import Make.

(** No element of the list is itself a list. *)
Definition flat (l : list node) : bool :=
  forallb (fun n => negb (is_block_list n)) l.

Lemma flat_app (a b : list node) : flat (a ++ b) = flat a && flat b.
Proof. apply forallb_app. Qed.

Lemma flat_add_current (blocks : list node) (current : list str) :
  flat blocks = true -> flat (add_current blocks current) = true.
Proof.
  intros H. destruct current; [exact H |].
  unfold add_current. rewrite flat_app, H. reflexivity.
Qed.

Lemma bodies_add_current (blocks : list node) (current : list str) :
  forallb bodies (add_current blocks current) = forallb bodies blocks.
Proof.
  destruct current; [reflexivity |].
  unfold add_current. rewrite forallb_app. simpl. now rewrite andb_true_r.
Qed.

(** The text of the blocks with the pending lines after them. *)
Lemma add_current_text (blocks : list node) (current qs : list str) :
  join [LF] (map to_str (add_current blocks current) ++ qs)
  = join [LF] (map to_str blocks ++ current ++ qs).
Proof.
  destruct current as [|c current]; [reflexivity |].
  unfold add_current. rewrite map_app, <- app_assoc.
  cbn [map to_str]. apply join_flatten. discriminate.
Qed.

Lemma directive_bodies (line : str) (e : option str) (child : list node) :
  flat child = true ->
  bodies (flatten_single (new_DirectiveBlock line e (BlockList child))) = true ->
  child <> [] /\ forallb bodies child = true.
Proof.
  intros F B. destruct child as [|x [|y l]].
  - discriminate B.
  - split; [discriminate |]. simpl in F. rewrite andb_true_r in F.
    destruct x; try discriminate F; simpl in *; now rewrite ?andb_true_r.
  - split; [discriminate | exact B].
Qed.

Lemma directive_text (line : str) (e : option str) (child : list node)
      (cs : list str) :
  cs <> [] ->
  join [LF] (map to_str child) = join [LF] cs ->
  to_str (flatten_single (new_DirectiveBlock line e (BlockList child)))
  = join [LF] ((line :: cs) ++ opt_line e).
Proof.
  intros Hc T. unfold new_DirectiveBlock, flatten_single.
  cbn [to_str]. rewrite !to_str_flatten1. cbn [to_str]. rewrite T.
  destruct e as [x|]; cbn [opt_line].
  - rewrite join_app by discriminate. rewrite join_cons by exact Hc.
    now rewrite <- !app_assoc.
  - rewrite !app_nil_r. now rewrite join_cons by exact Hc.
Qed.

(** What one run of the loop of [_split_directives] consumes and builds. *)
Lemma split_loop_text :
  forall fuel in_scope blocks current lines bl e rest,
    split_loop fuel in_scope blocks current lines = Some (bl, e, rest) ->
    flat blocks = true ->
    exists consumed,
      lines = consumed ++ opt_line e ++ rest /\
      (e = None -> rest = []) /\
      (in_scope = false -> e = None) /\
      flat bl = true /\
      (blocks = [] -> current = [] -> consumed = [] -> bl = []) /\
      (forallb bodies bl = true ->
       forallb bodies blocks = true /\
       join [LF] (map to_str bl)
       = join [LF] (map to_str blocks ++ current ++ consumed)).
Proof.
  induction fuel as [|fuel IH];
    intros sc blocks current lines bl e rest H F; [discriminate H |].
  rewrite split_loop_eq in H. destruct lines as [|line lines].
  - injection H as <- <- <-. exists []. repeat split; auto.
    + now apply flat_add_current.
    + now intros -> ->.
    + now rewrite bodies_add_current in H.
    + rewrite <- add_current_text. now rewrite !app_nil_r.
  - destruct (startswith_any start_directives (lstrip line)) eqn:S.
    + destruct (split_loop fuel true [] [] lines) as [[[child e1] r1]|] eqn:E1;
        [| discriminate H].
      destruct (IH _ _ _ _ _ _ _ E1 eq_refl)
        as [c1 [L1 [N1 [_ [F1 [Z1 T1]]]]]].
      assert (F2 : flat (add_current blocks current ++
                         [flatten_single
                            (new_DirectiveBlock line e1 (BlockList child))])
                   = true).
      { rewrite flat_app, flat_add_current by exact F. reflexivity. }
      destruct (IH _ _ _ _ _ _ _ H F2) as [c2 [L2 [N2 [S2 [Fb [_ T2]]]]]].
      exists (line :: c1 ++ opt_line e1 ++ c2). repeat split; auto.
      * rewrite L1, L2. simpl. now rewrite <- !app_assoc.
      * discriminate.
      * destruct (T2 H0) as [B2 _]. rewrite forallb_app in B2.
        apply andb_prop in B2 as [B2 _]. now rewrite bodies_add_current in B2.
      * destruct (T2 H0) as [B2 T]. rewrite forallb_app in B2.
        apply andb_prop in B2 as [_ B2]. simpl in B2.
        rewrite andb_true_r in B2.
        destruct (directive_bodies line e1 child F1 B2) as [Hne Hb].
        destruct (T1 Hb) as [_ Tc]. simpl in Tc.
        assert (Hc1 : c1 <> []) by (intros ->; now apply Hne, Z1).
        rewrite T, map_app. cbn [map].
        rewrite (directive_text line e1 child c1 Hc1 Tc).
        rewrite <- app_assoc. cbn [app].
        rewrite add_current_text.
        pose proof (join_flatten [LF] (map to_str blocks ++ current)
                      ((line :: c1) ++ opt_line e1) c2) as J.
        rewrite <- !app_assoc in J. cbn [app] in J.
        apply J. discriminate.
    + destruct (sc && startswith_any end_directives (lstrip line)) eqn:C.
      * injection H as <- <- <-. exists []. repeat split; auto.
        -- discriminate.
        -- intros ->. discriminate C.
        -- now apply flat_add_current.
        -- now intros -> ->.
        -- now rewrite bodies_add_current in H.
        -- rewrite <- add_current_text. now rewrite !app_nil_r.
      * destruct (IH _ _ _ _ _ _ _ H F) as [c [L [N [S2 [Fb [_ T]]]]]].
        exists (line :: c). repeat split; auto.
        -- now rewrite L.
        -- discriminate.
        -- now apply T.
        -- destruct (T H0) as [_ T']. rewrite T'.
           now rewrite <- !app_assoc.
Qed.

(** X1.  The directive pass keeps the text: when every directive block it
    built has a body, the blocks of the top-level call, written out and
    joined by line feeds, are the lines joined by line feeds; and the
    top-level call reports no end line. *)
Theorem directive_pass_keeps_text :
  forall lines blocks e,
    _split_directives lines false = Some (blocks, e) ->
    forallb bodies blocks = true ->
    e = None /\ dumps blocks = join [LF] lines.
Proof.
  intros lines blocks e H B. unfold _split_directives, _split_directives_fuel in H.
  destruct (split_loop (S (length lines)) false [] [] lines)
    as [[[bl e'] rest]|] eqn:E; [| discriminate H].
  injection H as <- <-.
  destruct (split_loop_text _ _ _ _ _ _ _ _ E eq_refl)
    as [c [L [N [S [_ [_ T]]]]]].
  specialize (S eq_refl). subst e'. specialize (N eq_refl). subst rest.
  split; [reflexivity |]. destruct (T B) as [_ T'].
  unfold dumps. rewrite T', L. simpl. now rewrite !app_nil_r.
Qed.

(** X2.  The top-level call of [_split_directives] returns for every
    input, reports no end line (an [endif] outside any block is text), and
    none of the blocks it returns is a bare list. *)
Theorem top_level_directive_pass :
  forall lines,
    exists blocks,
      _split_directives lines false = Some (blocks, None) /\
      flat blocks = true.
Proof.
  intros lines. unfold _split_directives, _split_directives_fuel.
  destruct (split_loop_total (S (length lines)) false [] [] lines)
    as [bl [e [rest [E _]]]]; [lia |].
  rewrite E.
  destruct (split_loop_text _ _ _ _ _ _ _ _ E eq_refl)
    as [c [_ [_ [S [F _]]]]].
  rewrite (S eq_refl). now exists bl.
Qed.

(** A makefile with a conditional between two plain lines. *)
Definition conditional_lines : list str :=
  [lit "a"; lit "ifeq ($(X),)"; lit "b"; lit "else"; lit "c"; lit "endif";
   lit "endif"; lit "d"].

Definition conditional_blocks : list node :=
  [Block (lit "a");
   DirectiveBlock (lit "ifeq ($(X),)") (Some (lit "endif"))
     (Block (join [LF] [lit "b"; lit "else"; lit "c"]));
   Block (join [LF] [lit "endif"; lit "d"])].

Lemma directive_pass_keeps_text_witness :
  _split_directives conditional_lines false = Some (conditional_blocks, None) /\
  dumps conditional_blocks = join [LF] conditional_lines.
Proof.
  split; [vm_compute; reflexivity |].
  apply (directive_pass_keeps_text conditional_lines conditional_blocks None);
    vm_compute; reflexivity.
Defined.

End DirectiveText.

(** ** Makefile: the text of the grouping pass *)

Section GroupingText.
Import Make.

(** Every comment block has something below its header. *)
Fixpoint data_ok (n : node) : bool :=
  match n with
  | Block _ => true
  | BlockList l => forallb data_ok l
  | CommentBlock _ _ child =>
      match child with
      | Block [] => false
      | BlockList [] => false
      | _ => data_ok child
      end
  | DirectiveBlock _ _ child => data_ok child
  end.

(** What [current] can be in the loop of [_group_comments]: the list of the
    blocks before any header, or a header with at least one child. *)
Definition cur_ok (current : node) : bool :=
  match current with
  | BlockList _ => true
  | CommentBlock _ _ (BlockList (_ :: _)) => true
  | _ => false
  end.

Lemma close_append_text (r : list node) (current b : node) (qs : list str) :
  cur_ok current = true ->
  join [LF] (map to_str (close_current r (append_current current b)) ++ qs)
  = join [LF] (map to_str (close_current r current) ++ [to_str b] ++ qs).
Proof.
  intros C. destruct current as [| kids | c t child |]; try discriminate C.
  - cbn [append_current close_current]. rewrite !map_app, <- !app_assoc.
    reflexivity.
  - destruct child as [| [|k kids] | |]; try discriminate C.
    cbn [append_current close_current flatten_single].
    rewrite !map_app. cbn [map to_str]. rewrite !to_str_flatten1.
    cbn [to_str]. rewrite map_app.
    rewrite (join_app [LF] (map to_str (k :: kids)) (map to_str [b]))
      by discriminate.
    cbn [map join].
    pose proof (join_flatten [LF] (map to_str r)
                  [c ++ [LF] ++ join [LF] (map to_str (k :: kids)); to_str b]
                  qs) as J.
    cbn [join] in J. rewrite <- !app_assoc in *. cbn [app] in *.
    apply J. discriminate.
Qed.

Lemma group_loop_text :
  forall l,
    Forall (fun x => forall x', group_comments x = Ok x' ->
                                data_ok x = true -> to_str x' = to_str x) l ->
    forall r current out,
      group_loop group_comments r current l = Ok out ->
      forallb data_ok l = true -> cur_ok current = true ->
      join [LF] (map to_str out)
      = join [LF] (map to_str (close_current r current) ++ map to_str l).
Proof.
  induction 1 as [|x l Hx _ IH]; intros r current out H D C.
  - cbn in H. injection H as <-. now rewrite app_nil_r.
  - cbn [group_loop] in H. cbn [forallb] in D. apply andb_prop in D as [Dx D].
    apply bind_Ok in H as [_ [_ H]]. apply bind_Ok in H as [_ [_ H]].
    destruct x as [s | l0 | c0 t0 child | s e child].
    + apply bind_Ok in H as [b [Hb H]].
      rewrite (IH _ _ _ H D) by (destruct current as [| |? ? [| [|? ?] | |]|];
                                 try discriminate C; reflexivity).
      rewrite close_append_text by exact C.
      now rewrite (Hx b Hb Dx).
    + apply bind_Ok in H as [b [Hb H]].
      rewrite (IH _ _ _ H D) by (destruct current as [| |? ? [| [|? ?] | |]|];
                                 try discriminate C; reflexivity).
      rewrite close_append_text by exact C.
      now rewrite (Hx b Hb Dx).
    + destruct child as [[|a d] | [|k kids] | |]; try discriminate Dx;
        try (rewrite (IH _ _ _ H D eq_refl);
             rewrite (close_current_app (close_current r current));
             rewrite map_app, <- app_assoc; reflexivity).
    + apply bind_Ok in H as [b [Hb H]].
      rewrite (IH _ _ _ H D) by (destruct current as [| |? ? [| [|? ?] | |]|];
                                 try discriminate C; reflexivity).
      rewrite close_append_text by exact C.
      now rewrite (Hx b Hb Dx).
Qed.

(** Two sections, each with text of its own, and a conditional. *)
Definition two_sections_text : list node :=
  [Block (lit "x");
   CommentBlock (header_of "# Section 1") (lit "Section 1") (Block (lit "y"));
   DirectiveBlock (lit "ifneq (a,)") (Some (lit "endif")) (Block (lit "b"));
   CommentBlock (header_of "# Section 2") (lit "Section 2") (Block (lit "c"))].

Definition two_sections_text_grouped : list node :=
  [Block (lit "x");
   CommentBlock (header_of "# Section 1") (lit "Section 1")
     (BlockList
        [Block (lit "y");
         DirectiveBlock (lit "ifneq (a,)") (Some (lit "endif"))
           (Block (lit "b"))]);
   CommentBlock (header_of "# Section 2") (lit "Section 2") (Block (lit "c"))].

Lemma group_comments_text :
  forall n n',
    group_comments n = Ok n' -> data_ok n = true -> to_str n' = to_str n.
Proof.
  induction n as [s | l IH | c t child IH | s e child IH] using node_induction;
    intros n' H D.
  - cbn in H. now injection H as <-.
  - rewrite group_comments_BlockList in H.
    apply bind_Ok in H as [out [H E]]. injection E as <-.
    cbn [to_str]. unfold _group_comments in H.
    now rewrite (group_loop_text l IH _ _ _ H D eq_refl).
  - discriminate H.
  - cbn [group_comments] in H. apply bind_Ok in H as [child' [H E]].
    injection E as <-. cbn [flatten_single to_str].
    rewrite to_str_flatten1. now rewrite (IH child' H D).
Qed.

(** X3.  Grouping keeps the text: when every comment block handed to
    [_group_comments], at any depth, has a non-empty body below its header,
    the grouped blocks written out are the original blocks written out. *)
Theorem grouping_keeps_text :
  forall blocks out,
    _group_comments blocks = Ok out ->
    forallb data_ok blocks = true ->
    dumps out = dumps blocks.
Proof.
  intros blocks out H D. unfold dumps, _group_comments in *.
  rewrite (group_loop_text blocks) with (r := []) (current := BlockList [])
                                        (out := out); auto.
  apply Forall_forall. intros x _ x'. apply group_comments_text.
Qed.

Lemma grouping_keeps_text_witness :
  _group_comments two_sections_text = Ok two_sections_text_grouped /\
  dumps two_sections_text_grouped = dumps two_sections_text.
Proof.
  split; [vm_compute; reflexivity |].
  apply grouping_keeps_text; vm_compute; reflexivity.
Defined.

End GroupingText.

(** ** Makefile: the shape of a grouped sequence *)

Section GroupingShape.
Import Make.

(** Blocks that are no comment headers, then comment headers only. *)
Definition headers_last (out : list node) : Prop :=
  exists lead cs,
    out = lead ++ cs /\
    forallb (fun n => negb (is_comment n)) lead = true /\
    forallb is_comment cs = true.

Lemma group_comments_not_comment (x x' : node) :
  group_comments x = Ok x' -> is_comment x' = false.
Proof.
  destruct x as [s | l | c t child | s e child]; intros H.
  - cbn in H. now injection H as <-.
  - rewrite group_comments_BlockList in H.
    apply bind_Ok in H as [out [_ E]]. now injection E as <-.
  - discriminate H.
  - cbn [group_comments] in H. apply bind_Ok in H as [child' [_ E]].
    now injection E as <-.
Qed.

(** The state of the loop: before any header nothing has been emitted and
    [current] lists blocks that are no headers; afterwards [current] is a
    header and what has been emitted has its headers last. *)
Definition state_ok (r : list node) (current : node) : Prop :=
  match current with
  | BlockList kids =>
      r = [] /\ forallb (fun n => negb (is_comment n)) kids = true
  | CommentBlock _ _ _ => headers_last r
  | _ => False
  end.

Lemma close_headers_last (r : list node) (current : node) :
  state_ok r current -> headers_last (close_current r current).
Proof.
  destruct current as [| kids | c t child |]; cbn; intros H; try contradiction.
  - destruct H as [-> H]. exists kids, []. now rewrite app_nil_r.
  - destruct H as [lead [cs [-> [H1 H2]]]].
    exists lead, (cs ++ [CommentBlock c t (flatten1 child)]).
    rewrite <- app_assoc. repeat split; auto.
    rewrite forallb_app, H2. reflexivity.
Qed.

Lemma group_loop_headers_last :
  forall l r current out,
    group_loop group_comments r current l = Ok out ->
    state_ok r current -> headers_last out.
Proof.
  induction l as [|x l IH]; intros r current out H S.
  - cbn in H. injection H as <-. now apply close_headers_last.
  - cbn [group_loop] in H.
    apply bind_Ok in H as [_ [_ H]]. apply bind_Ok in H as [_ [_ H]].
    assert (A : forall b, group_comments x = Ok b ->
                          state_ok r (append_current current b)).
    { intros b Hb. apply group_comments_not_comment in Hb.
      destruct current as [| kids | c t [| kids | |] |]; cbn in *;
        try contradiction; try exact S.
      destruct S as [-> S]. split; [reflexivity |].
      rewrite forallb_app, S. cbn. now rewrite Hb. }
    destruct x as [s | l0 | c0 t0 child | s e child].
    + apply bind_Ok in H as [b [Hb H]]. apply (IH _ _ _ H). now apply A.
    + apply bind_Ok in H as [b [Hb H]]. apply (IH _ _ _ H). now apply A.
    + apply (IH _ _ _ H). cbn. now apply close_headers_last.
    + apply bind_Ok in H as [b [Hb H]]. apply (IH _ _ _ H). now apply A.
Qed.

(** X4.  In what [_group_comments] returns, no block that is not a comment
    header comes after a comment header: from the first header on, every
    block of the sequence sits below a header. *)
Theorem grouped_headers_last :
  forall blocks out, _group_comments blocks = Ok out -> headers_last out.
Proof.
  intros blocks out H. apply (group_loop_headers_last _ _ _ _ H).
  cbn. auto.
Qed.

Lemma grouped_headers_last_witness : headers_last two_sections_text_grouped.
Proof.
  apply (grouped_headers_last two_sections_text). vm_compute. reflexivity.
Defined.

End GroupingShape.

(** ** Makefile: text without comment markers *)

Section NoHeader.
Import Re Make.

Definition all_ascii : list ascii := map ascii_of_nat (seq 0 256).

Lemma in_all_ascii (c : ascii) : In c all_ascii.
Proof.
  unfold all_ascii. rewrite <- (ascii_nat_embedding c).
  apply in_map, in_seq. pose proof (nat_ascii_bounded c). lia.
Qed.

(** The class accepts no character but [#]. *)
Definition only_hash (p : ascii -> bool) : bool :=
  forallb (fun c => implb (p c) (Ascii.eqb c "#")) all_ascii.

Lemma only_hash_spec (p : ascii -> bool) (c : ascii) :
  only_hash p = true -> p c = true -> c = "#"%char.
Proof.
  intros H P. unfold only_hash in H. rewrite forallb_forall in H.
  specialize (H c (in_all_ascii c)). rewrite P in H. now apply Ascii.eqb_eq.
Qed.

(** A sufficient test for: every match of the pattern takes a [#]. *)
Fixpoint needs_hash (r : re) : bool :=
  match r with
  | Chr p => only_hash p
  | Cat r1 r2 => needs_hash r1 || needs_hash r2
  | Alt r1 r2 => needs_hash r1 && needs_hash r2
  | Grp _ r1 => needs_hash r1
  | _ => false
  end.

Definition no_hash (t : str) : bool :=
  forallb (fun c => negb (Ascii.eqb c "#")) t.

Lemma go_needs_hash :
  forall r s k,
    no_hash (rest s) = true ->
    needs_hash r = true \/ (forall s1, no_hash (rest s1) = true -> k s1 = None) ->
    go r s k = None.
Proof.
  induction r as [| p | r1 IH1 r2 IH2 | r1 IH1 r2 IH2 | r1 IH1 | r1 IH1 | m
                 | i r1 IH1]; intros s k N H; cbn [go needs_hash] in *.
  - destruct H as [H | H]; [discriminate | now apply H].
  - destruct (rest s) as [|c t] eqn:R; [reflexivity |].
    cbn in N. apply andb_prop in N as [Nc Nt].
    destruct (p c) eqn:P; [| reflexivity].
    destruct H as [H | H].
    + rewrite (only_hash_spec p c H P) in Nc. discriminate Nc.
    + now apply H.
  - apply IH1; [exact N |].
    destruct H as [H | H].
    + apply orb_prop in H as [H | H]; [now left | right].
      intros s1 N1. apply IH2; auto.
    + right. intros s1 N1. apply IH2; auto.
  - destruct H as [H | H].
    + apply andb_prop in H as [H1 H2].
      rewrite IH1, IH2; auto.
    + rewrite IH1, IH2; auto.
  - destruct H as [H | H]; [discriminate |].
    generalize (length (rest s)). intros n. revert s N.
    induction n as [|n IHn]; intros s N; [now apply H |].
    rewrite IH1; [cbn; now apply H | exact N |].
    right. intros s1 N1. destruct (pos s <? pos s1); [now apply IHn | reflexivity].
  - destruct H as [H | H]; [discriminate |].
    generalize (length (rest s)). intros n. revert s N.
    induction n as [|n IHn]; intros s N; [now apply H |].
    rewrite (H s N). unfold orelse. apply IH1; [exact N |].
    right. intros s1 N1.
    destruct (pos s <? pos s1); [now apply IHn | reflexivity].
  - destruct H as [H | H]; [discriminate |].
    destruct (at_bol m s); [now apply H | reflexivity].
  - apply IH1; [exact N |].
    destruct H as [H | H]; [now left | right].
    intros s1 N1. now apply H.
Qed.

Lemma search_from_no_hash (r : re) :
  needs_hash r = true ->
  forall n s, no_hash (rest s) = true -> search_from r n s = None.
Proof.
  intros H. induction n as [|n IH]; intros s N; cbn [search_from];
    unfold match_here; rewrite go_needs_hash by auto.
  - reflexivity.
  - destruct (rest s) as [|c t] eqn:R; [reflexivity |].
    apply IH. cbn in *. now apply andb_prop in N as [_ N].
Qed.

(** X5.  A text without [#] holds no comment header: [_split_comments]
    returns it as one [Block], and the empty text as no block at all. *)
Theorem split_comments_without_hash :
  forall contents,
    no_hash contents = true ->
    _split_comments contents
    = Ok (match contents with [] => [] | _ => [Block contents] end).
Proof.
  intros contents N. destruct contents as [|c t]; [reflexivity |].
  unfold _split_comments, finditer. cbn [finditer_from].
  rewrite search_from_no_hash; [reflexivity | vm_compute; reflexivity |].
  exact N.
Qed.

Lemma split_comments_without_hash_witness :
  _split_comments (lit "LOCAL_PATH := $(call my-dir)")
  = Ok [Block (lit "LOCAL_PATH := $(call my-dir)")].
Proof.
  apply (split_comments_without_hash (lit "LOCAL_PATH := $(call my-dir)")).
  vm_compute. reflexivity.
Defined.

End NoHeader.

(** ** Makefile: parsing text without comment markers *)

Section PlainMakefile.
Import Make.

(** A tree of the directive pass with no [#] in its text blocks, no empty
    text block, no directive block without body and no list inside a
    list. *)
Fixpoint plain (n : node) : bool :=
  match n with
  | Block s => match s with [] => false | _ => no_hash s end
  | BlockList l => forallb (fun x => negb (is_block_list x) && plain x) l
  | CommentBlock _ _ _ => false
  | DirectiveBlock _ _ child =>
      match child with
      | BlockList [] => false
      | _ => plain child
      end
  end.

(** A tree without comment blocks and without a list inside a list. *)
Fixpoint groupable (n : node) : bool :=
  match n with
  | Block _ => true
  | BlockList l => forallb (fun x => negb (is_block_list x) && groupable x) l
  | CommentBlock _ _ _ => false
  | DirectiveBlock _ _ child => groupable child
  end.

Definition elements_ok (l : list node) : bool :=
  forallb (fun x => negb (is_block_list x) && groupable x) l.

Lemma groupable_flatten1 (l : list node) :
  elements_ok l = true -> groupable (flatten1 (BlockList l)) = true.
Proof.
  destruct l as [|x [|y l]]; intros H; try exact H.
  cbn in *. rewrite andb_true_r in H. now apply andb_prop in H as [_ H].
Qed.

Lemma split_comments_plain :
  forall n,
    plain n = true ->
    exists l,
      split_comments n = Ok l /\
      join [LF] (map to_str l) = to_str n /\
      elements_ok l = true /\
      (is_block_list n = false -> l <> []).
Proof.
  induction n as [s | xs IH | c t child IH | s e child IH] using node_induction;
    intros P.
  - cbn in P. destruct s as [|a s]; [discriminate P |].
    exists [Block (a :: s)]. cbn [split_comments].
    rewrite split_comments_without_hash by exact P.
    repeat split; auto. discriminate.
  - cbn [plain] in P. cbn [split_comments to_str].
    assert (A : exists parts,
               Make.sequence (map split_comments xs) = Ok parts /\
               join [LF] (map to_str (concat parts))
               = join [LF] (map to_str xs) /\
               elements_ok (concat parts) = true /\
               (xs <> [] -> concat parts <> [])).
    { induction IH as [|x xs Hx _ IHxs].
      - exists []. repeat split; auto.
      - cbn [forallb] in P. apply andb_prop in P as [Px P].
        apply andb_prop in Px as [Lx Px].
        destruct (Hx Px) as [p [Ep [Tp [Gp Np]]]].
        destruct (IHxs P) as [parts [Es [Ts [Gs Ns]]]].
        exists (p :: parts). cbn [map Make.sequence]. rewrite Ep, Es.
        cbn [bind concat]. split; [reflexivity |].
        assert (Hp : p <> []) by (apply Np; now destruct x).
        split; [| split].
        + rewrite map_app. destruct xs as [|y xs].
          * cbn in Es. injection Es as <-. cbn. now rewrite app_nil_r.
          * rewrite join_app.
            -- rewrite Tp, Ts. cbn [map].
               now rewrite (join_cons [LF] (to_str x)) by discriminate.
            -- now destruct p.
            -- assert (C : concat parts <> []) by (apply Ns; discriminate).
               now destruct (concat parts).
        + unfold elements_ok in *. now rewrite forallb_app, Gp, Gs.
        + intros _ C. apply app_eq_nil in C as [C _]. now apply Hp. }
    destruct A as [parts [Es [Ts [Gs _]]]].
    exists (concat parts). rewrite Es. cbn [bind]. unfold Util.flatten.
    repeat split; auto. discriminate.
  - discriminate P.
  - cbn [plain] in P. cbn [split_comments].
    assert (Pc : plain child = true) by (now destruct child as [| [|? ?] | |]).
    destruct (IH Pc) as [l [El [Tl [Gl _]]]].
    exists [new_DirectiveBlock s e (BlockList l)]. rewrite El. cbn [bind].
    repeat split.
    + unfold new_DirectiveBlock. cbn [map join to_str].
      rewrite to_str_flatten1. cbn [to_str]. now rewrite Tl.
    + unfold elements_ok, new_DirectiveBlock.
      cbn [forallb is_block_list negb andb groupable].
      now rewrite groupable_flatten1.
    + discriminate.
Qed.

Lemma plain_bodies (n : node) : plain n = true -> bodies n = true.
Proof.
  induction n as [s | xs IH | c t child IH | s e child IH] using node_induction;
    intros P; [reflexivity | | discriminate P |].
  - cbn [plain bodies] in *. induction IH as [|x xs Hx _ IHxs]; [reflexivity |].
    cbn [forallb] in *. apply andb_prop in P as [Px P].
    apply andb_prop in Px as [_ Px]. now rewrite (Hx Px), (IHxs P).
  - cbn [plain bodies] in *. destruct child as [| [|? ?] | |]; auto.
Qed.

Lemma group_loop_groupable :
  forall l,
    Forall (fun x => groupable x = true ->
                     exists x', group_comments x = Ok x') l ->
    elements_ok l = true ->
    forall r current, exists out,
      group_loop group_comments r current l = Ok out.
Proof.
  induction 1 as [|x l Hx _ IH]; intros G r current.
  - cbn. eauto.
  - unfold elements_ok in G. cbn [forallb] in G. apply andb_prop in G as [Gx G].
    apply andb_prop in Gx as [Lx Gx]. destruct (Hx Gx) as [x' Ex].
    cbn [group_loop].
    destruct x as [s | l0 | c0 t0 child | s e child];
      try discriminate Lx; try discriminate Gx;
      cbn [is_comment is_block_list negb orb assert bind];
      rewrite Ex; cbn [bind]; apply (IH G).
Qed.

Lemma group_comments_groupable :
  forall n, groupable n = true -> exists n', group_comments n = Ok n'.
Proof.
  induction n as [s | l IH | c t child IH | s e child IH] using node_induction;
    intros G.
  - cbn. eauto.
  - rewrite group_comments_BlockList. unfold _group_comments.
    destruct (group_loop_groupable l IH G [] (BlockList [])) as [out E].
    rewrite E. cbn. eauto.
  - discriminate G.
  - cbn [group_comments]. destruct (IH G) as [child' E]. rewrite E. cbn. eauto.
Qed.

Lemma groupable_data_ok (n : node) : groupable n = true -> data_ok n = true.
Proof.
  induction n as [s | xs IH | c t child IH | s e child IH] using node_induction;
    intros P; [reflexivity | | discriminate P | auto].
  cbn [groupable data_ok] in *. induction IH as [|x xs Hx _ IHxs]; [reflexivity |].
  cbn [forallb] in *. apply andb_prop in P as [Px P].
  apply andb_prop in Px as [_ Px]. now rewrite (Hx Px), (IHxs P).
Qed.

Lemma elements_ok_data_ok (l : list node) :
  elements_ok l = true -> forallb data_ok l = true.
Proof. intros H. now apply (groupable_data_ok (BlockList l)). Qed.

(** X6.  A makefile without comment markers loads and keeps its text: when
    the tree of the directive pass is [plain] (no [#], no empty text block,
    no directive without body), [loads] returns a makefile, and written out
    it is the lines of the input joined by line feeds. *)
Theorem plain_makefile_round_trip :
  forall contents directives e,
    _split_directives (splitlines contents) false = Some (directives, e) ->
    plain (BlockList directives) = true ->
    exists m,
      loads contents = Ok m /\
      dumps m = join [LF] (splitlines contents).
Proof.
  intros contents directives e H P. unfold loads. rewrite H.
  destruct (split_comments_plain (BlockList directives) P)
    as [l [El [Tl [Gl _]]]].
  rewrite El. cbn [bind].
  destruct (group_loop_groupable l) with (r := @nil node)
                                         (current := BlockList [])
    as [m Em]; [| exact Gl |].
  { apply Forall_forall. intros x _. apply group_comments_groupable. }
  exists m. unfold _group_comments. split; [exact Em |].
  unfold dumps.
  rewrite (group_loop_text l) with (r := []) (current := BlockList [])
                                   (out := m); auto.
  - cbn [close_current app map]. rewrite Tl. cbn [to_str].
    unfold _split_directives, _split_directives_fuel in H.
    destruct (split_loop (S (length (splitlines contents))) false [] []
                (splitlines contents))
      as [[[bl e'] rest]|] eqn:E; [| discriminate H].
    injection H as <- <-.
    destruct (split_loop_text _ _ _ _ _ _ _ _ E eq_refl)
      as [c [L [N [S [_ [_ T]]]]]].
    specialize (S eq_refl). subst e'. specialize (N eq_refl). subst rest.
    destruct (T (plain_bodies _ P)) as [_ T'].
    rewrite T', L. simpl. now rewrite !app_nil_r.
  - apply Forall_forall. intros x _ x'. apply group_comments_text.
  - now apply elements_ok_data_ok.
Qed.

(** A makefile with nested conditionals and no comment. *)
Definition nested_conditionals : str :=
  lit "LOCAL_PATH := $(call my-dir)" ++ [LF] ++
  lit "ifeq ($(HOST_OS),linux)" ++ [LF] ++
  lit "ifneq ($(A),)" ++ [LF] ++
  lit "X := 1" ++ [LF] ++
  lit "endif" ++ [LF] ++
  lit "Y := 2" ++ [LF] ++
  lit "endif" ++ [LF] ++
  lit "include $(BUILD_EXECUTABLE)" ++ [LF].

Definition nested_conditionals_tree : list node :=
  [Block (lit "LOCAL_PATH := $(call my-dir)");
   DirectiveBlock (lit "ifeq ($(HOST_OS),linux)") (Some (lit "endif"))
     (BlockList
        [DirectiveBlock (lit "ifneq ($(A),)") (Some (lit "endif"))
           (Block (lit "X := 1"));
         Block (lit "Y := 2")]);
   Block (lit "include $(BUILD_EXECUTABLE)")].

Lemma plain_makefile_round_trip_witness :
  exists m,
    loads nested_conditionals = Ok m /\
    dumps m = join [LF] (splitlines nested_conditionals).
Proof.
  apply (plain_makefile_round_trip nested_conditionals
           nested_conditionals_tree None);
    vm_compute; reflexivity.
Defined.

End PlainMakefile.

(** ** Makefile: walking the tree *)

Section Recurse.
Import Make.
Local Open Scope Z_scope.

(** The loop body of [_recurse_list] in the words of the source. *)
Lemma recurse_node_eq (max_depth depth : Z) (n : node) :
  recurse_node max_depth depth n
  = n :: (if has_block_list n then
            match n with
            | CommentBlock _ _ (BlockList l)
            | DirectiveBlock _ _ (BlockList l) =>
                _recurse_list l max_depth (depth + 1)
            | _ => []
            end
          else []).
Proof. destruct n as [| | c t [| | |] | s e [| | |]]; reflexivity. Qed.

Lemma subsequence_refl {A} (l : list A) : subsequence l l.
Proof. induction l; constructor; assumption. Qed.

Lemma subsequence_nil_l {A} (l : list A) : subsequence [] l.
Proof. induction l; constructor; assumption. Qed.

Lemma subsequence_app {A} (a a' b b' : list A) :
  subsequence a' a -> subsequence b' b -> subsequence (a' ++ b') (a ++ b).
Proof.
  induction 1; intros Hb; simpl;
    [assumption | apply subsequence_drop | apply subsequence_keep]; auto.
Qed.

(** Induction over a node that also reaches the nodes of a list held by a
    comment or directive block. *)
Lemma node_induction_lists (P : node -> Prop) :
  (forall s, P (Block s)) ->
  (forall l, Forall P l -> P (BlockList l)) ->
  (forall c t child,
      P child -> (forall l, child = BlockList l -> Forall P l) ->
      P (CommentBlock c t child)) ->
  (forall s e child,
      P child -> (forall l, child = BlockList l -> Forall P l) ->
      P (DirectiveBlock s e child)) ->
  forall n, P n.
Proof.
  intros HB HL HC HD n.
  enough (Q : P n /\ (forall l, n = BlockList l -> Forall P l)) by apply Q.
  induction n as [s | l IH | c t child IH | s e child IH] using node_induction.
  - split; [apply HB | discriminate].
  - assert (F : Forall P l).
    { induction IH as [|x l [Hx _] _ IHl]; constructor; assumption. }
    split; [now apply HL |]. intros l' E. now injection E as <-.
  - split; [apply HC; apply IH | discriminate].
  - split; [apply HD; apply IH | discriminate].
Qed.

Lemma flat_map_Forall_eq {A B} (f g : A -> list B) (l : list A) :
  Forall (fun x => f x = g x) l -> flat_map f l = flat_map g l.
Proof. induction 1 as [|x l Hx _ IH]; simpl; congruence. Qed.

Lemma recurse_node_no_limit :
  forall n max_depth depth max_depth' depth',
    max_depth < depth -> max_depth' < depth' ->
    recurse_node max_depth depth n = recurse_node max_depth' depth' n.
Proof.
  induction n as [s | l IH | c t child _ IH | s e child _ IH]
    using node_induction_lists;
    intros md d md' d' H H'; try reflexivity.
  - destruct child as [| l | |]; try reflexivity.
    cbn [recurse_node].
    destruct (Z.eqb_spec (d + 1) md); [lia |].
    destruct (Z.eqb_spec (d' + 1) md'); [lia |].
    f_equal. apply flat_map_Forall_eq.
    eapply Forall_impl; [| apply (IH l eq_refl)].
    intros x Hx. apply Hx; lia.
  - destruct child as [| l | |]; try reflexivity.
    cbn [recurse_node].
    destruct (Z.eqb_spec (d + 1) md); [lia |].
    destruct (Z.eqb_spec (d' + 1) md'); [lia |].
    f_equal. apply flat_map_Forall_eq.
    eapply Forall_impl; [| apply (IH l eq_refl)].
    intros x Hx. apply Hx; lia.
Qed.

Lemma flat_map_subsequence {A B} (f g : A -> list B) (l : list A) :
  Forall (fun x => subsequence (f x) (g x)) l ->
  subsequence (flat_map f l) (flat_map g l).
Proof.
  induction 1 as [|x l Hx _ IH]; simpl; [constructor |].
  now apply subsequence_app.
Qed.

Lemma recurse_node_limit :
  forall n max_depth depth max_depth' depth',
    max_depth' < depth' ->
    subsequence (recurse_node max_depth depth n)
                (recurse_node max_depth' depth' n).
Proof.
  induction n as [s | l IH | c t child _ IH | s e child _ IH]
    using node_induction_lists;
    intros md d md' d' H'; try apply subsequence_refl.
  - destruct child as [| l | |]; try apply subsequence_refl.
    cbn [recurse_node]. apply subsequence_keep.
    destruct (Z.eqb_spec (d' + 1) md'); [lia |].
    destruct (Z.eqb_spec (d + 1) md); [apply subsequence_nil_l |].
    apply flat_map_subsequence.
    eapply Forall_impl; [| apply (IH l eq_refl)].
    intros x Hx. apply Hx; lia.
  - destruct child as [| l | |]; try apply subsequence_refl.
    cbn [recurse_node]. apply subsequence_keep.
    destruct (Z.eqb_spec (d' + 1) md'); [lia |].
    destruct (Z.eqb_spec (d + 1) md); [apply subsequence_nil_l |].
    apply flat_map_subsequence.
    eapply Forall_impl; [| apply (IH l eq_refl)].
    intros x Hx. apply Hx; lia.
Qed.

(** X7.  A limit below the starting depth is no limit: whenever
    [max_depth < depth], [_recurse_list] yields the same nodes as the
    default call [recurse()], which has [max_depth = -1] and [depth = 0]. *)
Theorem recurse_negative_limit :
  forall lst max_depth depth,
    max_depth < depth ->
    _recurse_list lst max_depth depth = recurse lst.
Proof.
  intros lst md d H. unfold recurse, _recurse_list.
  destruct (Z.eqb_spec d md); [lia |]. cbn [Z.eqb].
  apply flat_map_Forall_eq, Forall_forall. intros x _.
  apply recurse_node_no_limit; lia.
Qed.

(** X8.  A depth limit only leaves nodes out: for every [max_depth] and
    [depth], the nodes of [_recurse_list] are, in their order, among the
    nodes of the default call [recurse()]. *)
Theorem recurse_limit_subsequence :
  forall lst max_depth depth,
    subsequence (_recurse_list lst max_depth depth) (recurse lst).
Proof.
  intros lst md d. unfold recurse, _recurse_list. cbn [Z.eqb].
  destruct (Z.eqb_spec d md); [apply subsequence_nil_l |].
  apply flat_map_subsequence, Forall_forall. intros x _.
  apply recurse_node_limit; lia.
Qed.

(** X9.  One level: with [max_depth = depth + 1] the nodes yielded are the
    nodes of the list itself, none of their children. *)
Theorem recurse_one_level :
  forall lst depth, _recurse_list lst (depth + 1) depth = lst.
Proof.
  intros lst d. unfold _recurse_list.
  destruct (Z.eqb_spec d (d + 1)); [lia |].
  induction lst as [|x lst IH]; [reflexivity |].
  cbn [flat_map]. rewrite IH.
  destruct x as [| | c t [| | |] | s e [| | |]]; cbn [recurse_node app];
    try reflexivity; now rewrite Z.eqb_refl.
Qed.

(** The grouped tree of a makefile with a section that holds a
    conditional. *)
Definition walked : Makefile :=
  [Block (lit "x");
   CommentBlock (lit "# Section") (lit "Section")
     (BlockList
        [Block (lit "y");
         DirectiveBlock (lit "ifdef A") (Some (lit "endif"))
           (BlockList [Block (lit "b"); Block (lit "c")])]);
   Block (lit "z")].

Lemma recurse_negative_limit_witness :
  _recurse_list walked (-5) 2 = recurse walked /\ length (recurse walked) = 7%nat.
Proof.
  split; [apply recurse_negative_limit; lia | vm_compute; reflexivity].
Defined.

End Recurse.

(** ** Makefile: what a filter leaves *)

Section FilterResult.
Import Make.

(** No list below the top of the node is empty. *)
Fixpoint solid (n : node) : bool :=
  match n with
  | Block _ => true
  | BlockList l => match l with [] => false | _ => forallb solid l end
  | CommentBlock _ _ child | DirectiveBlock _ _ child => solid child
  end.

(** [op] holds of every node that is not a list: of the node, of its child,
    and of the nodes of its lists. *)
Fixpoint accepted (op : node -> bool) (n : node) : bool :=
  match n with
  | Block _ => op n
  | BlockList l => forallb (accepted op) l
  | CommentBlock _ _ child | DirectiveBlock _ _ child =>
      op n && accepted op child
  end.

Variable op : node -> bool.

Lemma _filter_list_Forall (P : node -> bool) (l : list node) :
  Forall (fun n => fst (filter_node op n) = true ->
                   P (snd (filter_node op n)) = true) l ->
  forallb P (_filter_list op l) = true.
Proof.
  induction 1 as [|x l Hx _ IH]; [reflexivity |].
  cbn [_filter_list]. destruct (filter_node op x) as [keep x'].
  destruct keep; [| exact IH]. cbn [fst snd forallb] in *.
  now rewrite Hx, IH.
Qed.

Lemma filter_node_solid :
  forall n, fst (filter_node op n) = true ->
            solid (snd (filter_node op n)) = true.
Proof.
  induction n as [s | l IH | c t child IH | s e child IH] using node_induction.
  - reflexivity.
  - rewrite filter_node_BlockList. cbn [fst snd solid].
    pose proof (_filter_list_Forall solid l IH) as F.
    destruct (_filter_list op l); [discriminate | intros _; exact F].
  - cbn [filter_node]. destruct (op (CommentBlock c t child)).
    + destruct (filter_node op child) as [keep child']. exact IH.
    + discriminate.
  - cbn [filter_node]. destruct (op (DirectiveBlock s e child)).
    + destruct (filter_node op child) as [keep child']. exact IH.
    + discriminate.
Qed.

Lemma filter_node_accepted :
  child_blind op ->
  forall n, fst (filter_node op n) = true ->
            accepted op (snd (filter_node op n)) = true.
Proof.
  intros [BC BD].
  induction n as [s | l IH | c t child IH | s e child IH] using node_induction.
  - intros H. exact H.
  - rewrite filter_node_BlockList. cbn [fst snd accepted]. intros _.
    now apply _filter_list_Forall.
  - cbn [filter_node]. destruct (op (CommentBlock c t child)) eqn:O.
    + destruct (filter_node op child) as [keep child'].
      cbn [fst snd accepted] in *. intros K.
      now rewrite (BC c t child' child), O, (IH K).
    + discriminate.
  - cbn [filter_node]. destruct (op (DirectiveBlock s e child)) eqn:O.
    + destruct (filter_node op child) as [keep child'].
      cbn [fst snd accepted] in *. intros K.
      now rewrite (BD s e child' child), O, (IH K).
    + discriminate.
Qed.

Lemma filter_node_fixed :
  forall n, accepted op n = true -> solid n = true ->
            filter_node op n = (true, n).
Proof.
  induction n as [s | l IH | c t child IH | s e child IH] using node_induction;
    intros A S.
  - cbn in *. now rewrite A.
  - rewrite filter_node_BlockList. cbn [accepted solid] in *.
    assert (E : _filter_list op l = l).
    { assert (S' : forallb solid l = true) by (now destruct l).
      clear S. induction IH as [|x l Hx _ IHl]; [reflexivity |].
      cbn [forallb] in *. apply andb_prop in A as [Ax A].
      apply andb_prop in S' as [Sx S'].
      cbn [_filter_list]. now rewrite (Hx Ax Sx), (IHl A S'). }
    rewrite E. now destruct l.
  - cbn [accepted solid filter_node] in *. apply andb_prop in A as [O A].
    now rewrite O, (IH A S).
  - cbn [accepted solid filter_node] in *. apply andb_prop in A as [O A].
    now rewrite O, (IH A S).
Qed.

End FilterResult.

Section FilterResultFacts.
Import Make.

(** X10.  A filter leaves no empty section: whatever the predicate, no
    block kept by [Makefile.filter] holds an empty list at any depth.  So a
    comment or directive block whose list of children is or becomes empty is
    removed even when the predicate accepts it. *)
Theorem filter_leaves_no_empty_list :
  forall op m, forallb solid (filter op m) = true.
Proof.
  intros op m. unfold filter. apply _filter_list_Forall.
  apply Forall_forall. intros n _. apply filter_node_solid.
Qed.

(** X11.  A filter keeps accepted nodes only: when the verdict of the
    predicate on a comment or directive block does not depend on the child
    of the block, the predicate holds of every block, comment block and
    directive block left in the makefile, at any depth. *)
Theorem filter_keeps_accepted_only :
  forall op m, child_blind op -> forallb (accepted op) (filter op m) = true.
Proof.
  intros op m B. unfold filter. apply _filter_list_Forall.
  apply Forall_forall. intros n _. now apply filter_node_accepted.
Qed.

(** X12.  A filter with nothing to remove changes nothing: a makefile in
    which the predicate holds of every node that is not a list, and in
    which no list below the top is empty, is returned as it is. *)
Theorem filter_fixed_point :
  forall op m,
    forallb (accepted op) m = true -> forallb solid m = true ->
    filter op m = m.
Proof.
  intros op m A S. unfold filter.
  induction m as [|x m IH]; [reflexivity |].
  cbn [forallb] in *. apply andb_prop in A as [Ax A].
  apply andb_prop in S as [Sx S].
  cbn [_filter_list]. now rewrite (filter_node_fixed op x Ax Sx), (IH A S).
Qed.

Lemma filter_keeps_accepted_only_witness :
  forallb (accepted not_dev) (filter not_dev sections) = true.
Proof.
  apply filter_keeps_accepted_only. split; intros; reflexivity.
Defined.

Lemma filter_fixed_point_witness : filter not_dev walked = walked.
Proof.
  apply filter_fixed_point; vm_compute; reflexivity.
Defined.

End FilterResultFacts.

(** ** Makefile: writing a makefile and loading it again *)

Section Reload.
Import Make.

Definition no_linebreak (line : str) : bool :=
  forallb (fun c => negb (is_linebreak c)) line.

Lemma splitlines_aux_line (line cur rest : str) :
  no_linebreak line = true ->
  splitlines_aux cur (line ++ rest) = splitlines_aux (rev line ++ cur) rest.
Proof.
  revert cur. induction line as [|c line IH]; intros cur H; [reflexivity |].
  cbn in H. apply andb_prop in H as [Hc H].
  cbn [app splitlines_aux]. apply negb_true_iff in Hc. rewrite Hc.
  rewrite (IH _ H). cbn [rev]. now rewrite <- app_assoc.
Qed.

Lemma splitlines_aux_LF (cur rest : str) :
  splitlines_aux cur (LF :: rest) = rev cur :: splitlines_aux [] rest.
Proof. destruct rest; reflexivity. Qed.

Lemma splitlines_aux_join :
  forall lines line cur,
    forallb no_linebreak (line :: lines) = true ->
    splitlines_aux cur (join [LF] (line :: lines) ++ [LF])
    = (rev cur ++ line) :: lines.
Proof.
  induction lines as [|l2 lines IH]; intros line cur H;
    cbn [forallb] in H; apply andb_prop in H as [Hl H].
  - cbn [join]. rewrite splitlines_aux_line by exact Hl.
    rewrite splitlines_aux_LF. cbn [splitlines_aux].
    now rewrite rev_app_distr, rev_involutive.
  - rewrite join_cons by discriminate. rewrite <- !app_assoc.
    rewrite splitlines_aux_line by exact Hl. cbn [app].
    rewrite splitlines_aux_LF, (IH l2 [] H).
    now rewrite rev_app_distr, rev_involutive.
Qed.

Lemma splitlines_aux_no_linebreak :
  forall n s cur,
    length s <= n -> no_linebreak cur = true ->
    forallb no_linebreak (splitlines_aux cur s) = true.
Proof.
  assert (R : forall cur, no_linebreak cur = true ->
                          no_linebreak (rev cur) = true).
  { intros cur H. unfold no_linebreak in *. rewrite forallb_forall in *.
    intros c Hc. apply H. now apply in_rev. }
  induction n as [|n IH]; intros s cur L H.
  - destruct s; [| simpl in L; lia]. cbn [splitlines_aux].
    destruct cur; [reflexivity |]. cbn [forallb]. now rewrite (R _ H).
  - destruct s as [|c s].
    + cbn [splitlines_aux].
      destruct cur; [reflexivity |]. cbn [forallb]. now rewrite (R _ H).
    + simpl in L. cbn [splitlines_aux]. destruct (is_linebreak c) eqn:B.
      * destruct s as [|d s].
        -- cbn [splitlines_aux forallb]. now rewrite (R _ H).
        -- destruct (Ascii.eqb c CR && Ascii.eqb d LF); cbn [forallb];
             rewrite (R _ H); apply IH; simpl in *; try lia; reflexivity.
      * apply IH; [lia |]. cbn. now rewrite B.
Qed.

Lemma splitlines_aux_not_nil (s cur : str) :
  cur <> [] -> splitlines_aux cur s <> [].
Proof.
  revert cur. induction s as [|c s IH]; intros cur H.
  - cbn. now destruct cur.
  - cbn [splitlines_aux]. destruct (is_linebreak c).
    + destruct s as [|d s]; [discriminate |].
      destruct (Ascii.eqb c CR && Ascii.eqb d LF); discriminate.
    + apply IH. discriminate.
Qed.

Lemma splitlines_not_nil (s : str) : s <> [] -> splitlines s <> [].
Proof.
  destruct s as [|c s]; [congruence | intros _].
  unfold splitlines. cbn [splitlines_aux]. destruct (is_linebreak c).
  - destruct s as [|d s]; [discriminate |].
    destruct (Ascii.eqb c CR && Ascii.eqb d LF); discriminate.
  - apply splitlines_aux_not_nil. discriminate.
Qed.

(** The lines of a text, joined and closed by a line feed, are read back
    as the same lines. *)
Lemma splitlines_written (contents : str) :
  contents <> [] ->
  splitlines (join [LF] (splitlines contents) ++ [LF]) = splitlines contents.
Proof.
  intros H. pose proof (splitlines_not_nil contents H) as N.
  pose proof (splitlines_aux_no_linebreak (length contents) contents []
                (le_n _) eq_refl) as B.
  fold (splitlines contents) in B.
  destruct (splitlines contents) as [|line lines]; [congruence |].
  unfold splitlines at 1. now rewrite splitlines_aux_join.
Qed.

(** X13.  Writing and loading again: when a makefile that is not empty
    loads, and the loaded makefile written out is the lines of the text
    joined by line feeds, then the text that [dump] writes loads as the same
    makefile. *)
Theorem dump_then_load :
  forall contents m,
    contents <> [] ->
    loads contents = Ok m ->
    dumps m = join [LF] (splitlines contents) ->
    loads (dump m) = Ok m.
Proof.
  intros contents m N L T. unfold dump. rewrite T.
  unfold loads in *. now rewrite (splitlines_written contents N).
Qed.

(** A makefile with a section header and a conditional below it. *)
Definition benchmarks_section : str :=
  lit "LOCAL_PATH := x" ++ [LF] ++
  lit "# -----" ++ [LF] ++
  lit "# Benchmarks." ++ [LF] ++
  lit "# -----" ++ [LF] ++
  lit "ifdef A" ++ [LF] ++
  lit "b := 1" ++ [LF] ++
  lit "endif" ++ [LF] ++
  lit "c := 2" ++ [LF].

Definition benchmarks_section_loaded : Makefile :=
  [Block (lit "LOCAL_PATH := x");
   CommentBlock
     (lit "# -----" ++ [LF] ++ lit "# Benchmarks." ++ [LF] ++ lit "# -----")
     (lit "Benchmarks.")
     (BlockList
        [DirectiveBlock (lit "ifdef A") (Some (lit "endif"))
           (Block (lit "b := 1"));
         Block (lit "c := 2")])].

Lemma dump_then_load_witness :
  loads (dump benchmarks_section_loaded) = Ok benchmarks_section_loaded.
Proof.
  apply (dump_then_load benchmarks_section);
    [discriminate | vm_compute; reflexivity | vm_compute; reflexivity].
Defined.

End Reload.

(** ** util.py: classification and case *)

Section CaseBlind.
Import Re Util.

Lemma is_test_iff (s : str) :
  is_test s = true <->
  contains (lit "non-test") (lower s) = false /\
  word_after before_test (lit "test") s.
Proof.
  unfold is_test, _is_match.
  destruct (contains (lit "non-test") (lower s)).
  - split; [discriminate | intros [H _]; discriminate].
  - rewrite is_match_iff, <- hit_word_after. split.
    + intros [i [Hi H]]. split; [reflexivity |].
      exists i. split; [exact Hi |]. now apply test_pattern_hit.
    + intros [_ [i [Hi H]]]. exists i. split; [exact Hi |].
      now apply test_pattern_hit.
Qed.

Lemma is_benchmark_iff (s : str) :
  is_benchmark s = true <-> word_after before_benchmark (lit "benchmark") s.
Proof.
  unfold is_benchmark, _is_match.
  rewrite is_match_iff, <- hit_word_after.
  split; intros [i [Hi H]]; exists i; (split; [exact Hi |]);
    now apply benchmark_pattern_hit.
Qed.

Lemma before_lower (c : ascii) :
  before_test (lower_char c) = before_test c /\
  before_benchmark (lower_char c) = before_benchmark c.
Proof.
  assert (H : forallb (fun c =>
                Bool.eqb (before_test (lower_char c)) (before_test c) &&
                Bool.eqb (before_benchmark (lower_char c))
                         (before_benchmark c)) all_ascii = true)
    by (vm_compute; reflexivity).
  rewrite forallb_forall in H. specialize (H c (in_all_ascii c)).
  apply andb_prop in H as [H1 H2].
  split; now apply Bool.eqb_prop.
Qed.

Lemma word_after_lower (ok : ascii -> bool) (word s t : str) :
  (forall c, ok (lower_char c) = ok c) ->
  lower s = lower t ->
  word_after ok word s -> word_after ok word t.
Proof.
  intros Hok E [pre [w [post [Es [Lw B]]]]].
  subst s. unfold lower in *. rewrite !map_app in E. symmetry in E.
  apply map_eq_app in E as [t1 [t23 [-> [E1 E23]]]].
  apply map_eq_app in E23 as [t2 [t3 [-> [E2 E3]]]].
  exists t1, t2, t3. split; [reflexivity |].
  split; [unfold lower; congruence |].
  destruct B as [-> | [pre' [c [-> Hc]]]].
  - left. now apply map_eq_nil in E1.
  - right. rewrite map_app in E1.
    apply map_eq_app in E1 as [t1' [tc [-> [_ Ec]]]].
    destruct tc as [|c' [|? ?]]; try discriminate Ec.
    cbn in Ec. injection Ec as Ec.
    exists t1', c'. split; [reflexivity |].
    now rewrite <- Hok, Ec, Hok.
Qed.

(** X14.  Classification ignores case: two names that are equal once
    lowered are classified alike by [is_test] and by [is_benchmark]. *)
Theorem classification_ignores_case :
  forall s t,
    lower s = lower t ->
    is_test s = is_test t /\ is_benchmark s = is_benchmark t.
Proof.
  intros s t E. split.
  - pose proof (is_test_iff s) as Hs. pose proof (is_test_iff t) as Ht.
    rewrite E in Hs.
    assert (W : word_after before_test (lit "test") s <->
                word_after before_test (lit "test") t).
    { split; apply word_after_lower; auto; intros c; apply before_lower. }
    destruct (is_test s), (is_test t); try reflexivity.
    + symmetry. apply Ht. destruct Hs as [Hs _].
      destruct (Hs eq_refl) as [N H]. split; [exact N | now apply W].
    + apply Hs. destruct Ht as [Ht _].
      destruct (Ht eq_refl) as [N H]. split; [exact N | now apply W].
  - pose proof (is_benchmark_iff s) as Hs.
    pose proof (is_benchmark_iff t) as Ht.
    assert (W : word_after before_benchmark (lit "benchmark") s <->
                word_after before_benchmark (lit "benchmark") t).
    { split; apply word_after_lower; auto; intros c; apply before_lower. }
    destruct (is_benchmark s), (is_benchmark t); try reflexivity.
    + symmetry. apply Ht, W, Hs. reflexivity.
    + apply Hs, W, Ht. reflexivity.
Qed.

Lemma classification_ignores_case_witness :
  is_test (lit "CC_Test") = is_test (lit "cc_test") /\
  is_benchmark (lit "CC_Test") = is_benchmark (lit "cc_test").
Proof.
  apply classification_ignores_case. vm_compute; reflexivity.
Defined.

End CaseBlind.

(** ** Blueprint values: induction *)

Section ExprInduction.
Import Soong.

Variable P : expr -> Prop.
Hypothesis HIdent : forall s, P (Ident s).
Hypothesis HString : forall s, P (String s).
Hypothesis HInteger : forall n, P (Integer n).
Hypothesis HBool : forall b, P (Bool b).
Hypothesis HMap :
  forall items,
    Forall (fun kv => match snd kv with MapValue _ v => P v end) items ->
    P (Map items).
Hypothesis HList : forall l, Forall P l -> P (List l).
Hypothesis HBinary :
  forall lhs op rhs, P lhs -> P rhs -> P (BinaryOperator lhs op rhs).

(** Induction over a value, the values of its entries and its elements. *)
Fixpoint expr_induction (e : expr) : P e :=
  match e with
  | Ident s => HIdent s
  | String s => HString s
  | Integer n => HInteger n
  | Bool b => HBool b
  | Map items =>
      HMap items
        ((fix all (items : list (str * map_value))
            : Forall (fun kv => match snd kv with MapValue _ v => P v end)
                     items :=
            match items with
            | [] => Forall_nil _
            | (k, MapValue d v) :: rest =>
                Forall_cons (k, MapValue d v) (expr_induction v) (all rest)
            end) items)
  | List l =>
      HList l
        ((fix all (l : list expr) : Forall P l :=
            match l with
            | [] => Forall_nil P
            | x :: rest => Forall_cons x (expr_induction x) (all rest)
            end) l)
  | BinaryOperator lhs op rhs =>
      HBinary lhs op rhs (expr_induction lhs) (expr_induction rhs)
  end.

End ExprInduction.

(** ** Blueprint: the compact form *)

Section CompactForm.
Import Soong.

Lemma map_Forall_eq {A B} (f g : A -> B) (l : list A) :
  Forall (fun x => f x = g x) l -> map f l = map g l.
Proof. induction 1 as [|x l Hx _ IH]; simpl; congruence. Qed.

Lemma map_value_to_str_eq (pretty : bool) (indent depth : nat)
      (delimiter : str) (value : expr) :
  map_value_to_str pretty indent depth (MapValue delimiter value)
  = if str_eqb delimiter (lit "=")
    then lit " = " ++ to_str pretty indent depth value
    else lit ": " ++ to_str pretty indent depth value.
Proof. destruct value; reflexivity. Qed.

Lemma compact_to_str :
  forall e indent depth indent' depth',
    to_str false indent depth e = to_str false indent' depth' e.
Proof.
  induction e as [s | s | n | b | items IH | l IH | lhs op rhs IHl IHr]
    using expr_induction; intros i d i' d'; try reflexivity.
  - rewrite !to_str_Map. cbv zeta. destruct items as [|kv items]; [reflexivity |].
    do 2 f_equal. f_equal. apply map_Forall_eq.
    eapply Forall_impl; [| exact IH].
    intros [k [dl v]] H. cbn [fst snd] in *. f_equal.
    rewrite !map_value_to_str_eq. now rewrite (H i (d + 1) i' (d' + 1)).
  - rewrite !to_str_List. cbv zeta. rewrite !orb_true_r.
    do 2 f_equal. f_equal. apply map_Forall_eq.
    eapply Forall_impl; [| exact IH].
    intros x H. cbn beta.
    destruct (is_map x); apply H.
  - cbn [to_str]. now rewrite (IHl i d i' d'), (IHr i d i' d').
Qed.

(** X15.  The compact form does not depend on the layout arguments: with
    [pretty] false, [to_str] of a value returns the same text for every
    [indent] and [depth], and [Ast.dumps] returns [str(ast)] for every
    [indent]. *)
Theorem compact_form_ignores_layout :
  (forall e indent depth, to_str false indent depth e = to_str false 4 0 e) /\
  (forall a indent, dumps a false indent = ast_str a).
Proof.
  split; [intros; apply compact_to_str |].
  intros a indent. unfold dumps, ast_str, ast_to_str. f_equal.
  apply map_Forall_eq, Forall_forall. intros r _.
  destruct r as [name e | name op e | name m]; cbn [rule_to_str];
    now rewrite (compact_to_str _ indent 0 4 0).
Qed.

End CompactForm.

(** ** Blueprint: classifying a scope *)

Section ScopeClassification.
Import Soong.

(** The [name] entry of the map, when there is one, holds a string or an
    identifier. *)
Definition name_is_text (m : list (str * map_value)) : bool :=
  match get m (lit "name") with
  | None => true
  | Some (MapValue _ value) => is_string value || is_ident value
  end.

(** X16.  When [Scope.is_dev] raises: a scope whose own name contains
    [art-check] is a development scope whatever its map holds; any other
    scope whose map has a [name] entry that is neither a string nor an
    identifier makes [is_dev] raise [AttributeError], even when the scope
    name alone would make it a test; in every remaining case [is_dev]
    returns a truth value. *)
Theorem scope_is_dev_raises :
  forall name m,
    (contains (lit "art-check") (lower name) = true ->
     scope_is_dev name m = Ok true) /\
    (contains (lit "art-check") (lower name) = false ->
     name_is_text m = false ->
     scope_is_dev name m = Raise AttributeError) /\
    (name_is_text m = true -> exists b, scope_is_dev name m = Ok b).
Proof.
  intros name m.
  unfold scope_is_dev, scope_is_art_check, scope_is_test, scope_is_benchmark,
    map_is_art_check, map_is_test, map_is_benchmark, name_is_text.
  split; [| split].
  - intros A. rewrite A. reflexivity.
  - intros A. rewrite A. cbn [or_else bind].
    destruct (get m (lit "name")) as [[d v]|]; [| discriminate].
    destruct v; try discriminate; reflexivity.
  - destruct (contains (lit "art-check") (lower name)); [now exists true |].
    cbn [or_else bind].
    destruct (get m (lit "name")) as [[d v]|].
    + destruct v as [s | s | | | | |]; try discriminate; intros _;
        cbn [lower_of bind or_else];
        repeat match goal with
               | |- exists b, Ok _ = Ok b => eexists; reflexivity
               | |- context [if ?c then _ else _] =>
                   destruct c; cbn [bind or_else]
               end.
    + intros _. cbn [bind or_else].
      repeat match goal with
             | |- exists b, Ok _ = Ok b => eexists; reflexivity
             | |- context [if ?c then _ else _] =>
                 destruct c; cbn [bind or_else]
             end.
Qed.

(** A test scope whose name is put together with [+]. *)
Definition joined_name : list (str * map_value) :=
  [(lit "name",
    MapValue (lit ":")
      (BinaryOperator (String ([DQUOTE] ++ lit "lib" ++ [DQUOTE])) (lit "+")
                      (String ([DQUOTE] ++ lit "_test" ++ [DQUOTE]))))].

Lemma scope_is_dev_raises_witness :
  Util.is_test (lit "cc_test") = true /\
  scope_is_dev (lit "cc_test") joined_name = Raise AttributeError.
Proof.
  split; [vm_compute; reflexivity |].
  apply (scope_is_dev_raises (lit "cc_test") joined_name);
    vm_compute; reflexivity.
Defined.

End ScopeClassification.

(** ** Blueprint: walking a map *)

Section MapRecurse.
Import Soong.
Local Open Scope Z_scope.

(** What the loop of [Map.recurse] yields for one entry of [items]. *)
Definition recurse_entry (max_depth depth : Z)
           (items : list (str * map_value)) (kv : str * map_value)
  : list entry :=
  (fst kv, snd kv, depth + 1, items)
  :: match snd kv with
     | MapValue _ v =>
         if is_map v then recurse_expr max_depth (depth + 1) v else []
     end.

Lemma recurse_expr_Map (max_depth depth : Z) (items : list (str * map_value)) :
  recurse_expr max_depth depth (Map items)
  = if depth =? max_depth then []
    else flat_map (recurse_entry max_depth depth items) items.
Proof.
  cbn [recurse_expr]. destruct (depth =? max_depth); [reflexivity |].
  generalize items at 1 3. intros parent.
  induction items as [|[k v] items IH]; [reflexivity |].
  cbn [flat_map]. rewrite <- IH. reflexivity.
Qed.

Definition depth_of (t : entry) : Z := snd (fst t).
Definition parent_of (t : entry) : list (str * map_value) := snd t.
Definition pair_of (t : entry) : str * map_value := fst (fst t).

Lemma recurse_expr_depths :
  forall e max_depth depth,
    Forall (fun t => depth < depth_of t /\
                     (depth <= max_depth -> depth_of t <= max_depth) /\
                     In (pair_of t) (parent_of t))
           (recurse_expr max_depth depth e).
Proof.
  induction e as [s | s | n | b | items IH | l IH | lhs op rhs IHl IHr]
    using expr_induction; intros md d; try constructor.
  rewrite recurse_expr_Map. destruct (Z.eqb_spec d md) as [E | NE];
    [constructor |].
  apply Forall_flat_map. rewrite Forall_forall in *.
  intros [k [dl v]] Hin. unfold recurse_entry. cbn [fst snd].
  constructor.
  - unfold depth_of, parent_of, pair_of. cbn [fst snd].
    split; [lia |]. split; [lia | exact Hin].
  - destruct (is_map v); [| constructor].
    specialize (IH _ Hin md (d + 1)). cbn [snd] in IH.
    eapply Forall_impl; [| exact IH].
    intros t [H1 [H2 H3]]. split; [lia |]. split; [lia | exact H3].
Qed.

Lemma recurse_expr_no_limit :
  forall e max_depth max_depth' depth,
    max_depth < depth -> max_depth' < depth ->
    recurse_expr max_depth depth e = recurse_expr max_depth' depth e.
Proof.
  induction e as [s | s | n | b | items IH | l IH | lhs op rhs IHl IHr]
    using expr_induction; intros md md' d H H'; try reflexivity.
  rewrite !recurse_expr_Map.
  destruct (Z.eqb_spec d md); [lia |]. destruct (Z.eqb_spec d md'); [lia |].
  generalize items at 1 3. intros parent.
  induction IH as [|[k [dl v]] items Hv _ IHitems]; [reflexivity |].
  cbn [flat_map]. rewrite IHitems. f_equal.
  unfold recurse_entry. cbn [fst snd] in *. f_equal.
  destruct (is_map v); [| reflexivity]. apply Hv; lia.
Qed.

(** X17.  The depths that [Map.recurse] reports: every tuple it yields
    has a depth above the starting depth, and at most [max_depth] when the
    starting depth is not above [max_depth]; its key and value are an entry
    of the map it names as parent. *)
Theorem map_recurse_depths :
  forall m max_depth depth,
    Forall (fun t => depth < depth_of t /\
                     (depth <= max_depth -> depth_of t <= max_depth) /\
                     In (pair_of t) (parent_of t))
           (map_recurse m max_depth depth).
Proof. intros m md d. apply recurse_expr_depths. Qed.

(** X18.  A limit below the starting depth is no limit: all values of
    [max_depth] below [depth], the default [-1] at depth 0 among them,
    make [Map.recurse] yield the same tuples. *)
Theorem map_recurse_negative_limit :
  forall m max_depth max_depth' depth,
    max_depth < depth -> max_depth' < depth ->
    map_recurse m max_depth depth = map_recurse m max_depth' depth.
Proof. intros m md md' d H H'. now apply recurse_expr_no_limit. Qed.

(** The map of the scope [cc_test] of the test file, shortened. *)
Definition nested_map : list (str * map_value) :=
  [(lit "name", MapValue (lit ":") (String ([DQUOTE] ++ lit "test" ++ [DQUOTE])));
   (lit "nested",
    MapValue (lit ":")
      (Map [(lit "array",
             MapValue (lit ":")
               (Map [(lit "option", MapValue (lit ":") (Bool false))]))]))].

Lemma map_recurse_depths_witness :
  Forall (fun t => 0 < depth_of t /\
                   (0 <= 2 -> depth_of t <= 2) /\
                   In (pair_of t) (parent_of t))
         (map_recurse nested_map 2 0) /\
  length (map_recurse nested_map 2 0) = 3%nat.
Proof.
  split; [apply map_recurse_depths | vm_compute; reflexivity].
Defined.

Lemma map_recurse_negative_limit_witness :
  map_recurse nested_map (-1) 0 = map_recurse nested_map (-7) 0 /\
  map (fun t => (fst (pair_of t), depth_of t)) (map_recurse nested_map (-1) 0)
  = [(lit "name", 1); (lit "nested", 1); (lit "array", 2); (lit "option", 3)].
Proof.
  split; [apply map_recurse_negative_limit; lia | vm_compute; reflexivity].
Defined.

End MapRecurse.

(** ** build-system.py: removing names from a blueprint value *)

Section ItemOp.
Import Soong BuildSystem.

Variable remove : list str.

Lemma item_op_Map (items : list (str * map_value)) :
  item_op remove (Map items)
  = items' <- filter_map remove items ;; Ok (true, Map items').
Proof.
  cbn [item_op]. f_equal.
  induction items as [|[k [d v]] items IH]; [reflexivity |].
  cbn [filter_map]. now rewrite <- IH.
Qed.

Lemma item_op_List (l : list expr) :
  item_op remove (List l)
  = l' <- filter_list remove l ;; Ok (true, List l').
Proof.
  cbn [item_op]. f_equal.
  induction l as [|x l IH]; [reflexivity |].
  cbn [filter_list]. now rewrite <- IH.
Qed.

(** The values [item_op] has a case for, at every place it reaches: maps,
    lists, strings and operators; an identifier, a number or a truth value
    as a list element or a map value is none. *)
Fixpoint handled (e : expr) : bool :=
  match e with
  | Map items =>
      forallb (fun kv => match snd kv with MapValue _ v => handled v end) items
  | List l => forallb handled l
  | String _ | BinaryOperator _ _ _ => true
  | _ => false
  end.

Lemma item_op_handled :
  forall e,
    if handled e then exists r, item_op remove e = Ok r
    else item_op remove e = Raise TypeError.
Proof.
  induction e as [s | s | n | b | items IH | l IH | lhs op rhs _ _]
    using expr_induction; try reflexivity; cbn [handled].
  - eexists. reflexivity.
  - rewrite item_op_Map.
    assert (A : if forallb (fun kv => match snd kv with
                                      | MapValue _ v => handled v
                                      end) items
                then exists r, filter_map remove items = Ok r
                else filter_map remove items = Raise TypeError).
    { induction IH as [|[k [d v]] items Hv _ IHitems]; [now exists [] |].
      cbn [forallb filter_map snd] in *. destruct (handled v).
      - destruct Hv as [r ->]. cbn [bind andb].
        destruct (forallb _ items).
        + destruct IHitems as [r' ->]. cbn [bind]. eauto.
        + now rewrite IHitems.
      - now rewrite Hv. }
    destruct (forallb _ items).
    + destruct A as [r ->]. cbn [bind]. eauto.
    + now rewrite A.
  - rewrite item_op_List.
    assert (A : if forallb handled l
                then exists r, filter_list remove l = Ok r
                else filter_list remove l = Raise TypeError).
    { induction IH as [|x l Hx _ IHl]; [now exists [] |].
      cbn [forallb filter_list] in *. destruct (handled x).
      - destruct Hx as [r ->]. cbn [bind andb].
        destruct (forallb handled l).
        + destruct IHl as [r' ->]. cbn [bind]. eauto.
        + now rewrite IHl.
      - now rewrite Hx. }
    destruct (forallb handled l).
    + destruct A as [r ->]. cbn [bind]. eauto.
    + now rewrite A.
  - eexists. reflexivity.
Qed.

Lemma item_op_String (e : expr) (r : bool * expr) :
  item_op remove e = Ok r ->
  forall s, (snd r = String s <-> e = String s) /\
            (e = String s -> fst r = keeps remove s).
Proof.
  intros H s. destruct e as [t | t | n | b | items | l | lhs op rhs];
    try discriminate H.
  - cbn in H. injection H as <-. cbn [fst snd]. split; [tauto |].
    intros E. now injection E as ->.
  - rewrite item_op_Map in H. apply bind_Ok in H as [items' [_ H]].
    injection H as <-. cbn [snd]. split; [| discriminate].
    split; discriminate.
  - rewrite item_op_List in H. apply bind_Ok in H as [l' [_ H]].
    injection H as <-. cbn [snd]. split; [| discriminate].
    split; discriminate.
  - cbn in H. injection H as <-. cbn [snd]. split; [tauto | discriminate].
Qed.

Lemma filter_list_strings :
  forall l l',
    filter_list remove l = Ok l' ->
    forall s, In (String s) l' <-> In (String s) l /\ keeps remove s = true.
Proof.
  induction l as [|x l IH]; intros l' H s.
  - cbn in H. injection H as <-. cbn. tauto.
  - cbn [filter_list] in H. apply bind_Ok in H as [r [Hr H]].
    apply bind_Ok in H as [rest' [Hrest H]]. injection H as <-.
    destruct (item_op_String x r Hr s) as [S K].
    specialize (IH rest' Hrest s). cbn [In].
    destruct (fst r) eqn:F; cbn [In]; rewrite IH; split.
    + intros [E | [I Ks]]; [| tauto]. apply S in E. split; [now left |].
      now rewrite <- (K E).
    + intros [[E | I] Ks]; [left; now apply S | tauto].
    + tauto.
    + intros [[E | I] Ks]; [| tauto]. specialize (K E). congruence.
Qed.

Lemma filter_list_again :
  forall l,
    Forall (fun x => forall r, item_op remove x = Ok r ->
                               item_op remove (snd r) = Ok r) l ->
    forall l', filter_list remove l = Ok l' -> filter_list remove l' = Ok l'.
Proof.
  induction 1 as [|x l Hx _ IH]; intros l' H.
  - cbn in H. now injection H as <-.
  - cbn [filter_list] in H. apply bind_Ok in H as [r [Hr H]].
    apply bind_Ok in H as [rest' [Hrest H]]. injection H as <-.
    specialize (IH rest' Hrest). destruct (fst r) eqn:F; [| exact IH].
    cbn [filter_list]. rewrite (Hx r Hr), IH. cbn [bind]. now rewrite F.
Qed.

Lemma filter_map_again :
  forall items,
    Forall (fun kv => match snd kv with
                      | MapValue _ v =>
                          forall r, item_op remove v = Ok r ->
                                    item_op remove (snd r) = Ok r
                      end) items ->
    forall items', filter_map remove items = Ok items' ->
                   filter_map remove items' = Ok items'.
Proof.
  induction 1 as [|[k [d v]] items Hv _ IH]; intros items' H.
  - cbn in H. now injection H as <-.
  - cbn [filter_map] in H. apply bind_Ok in H as [r [Hr H]].
    apply bind_Ok in H as [rest' [Hrest H]]. injection H as <-.
    specialize (IH rest' Hrest). destruct (fst r) eqn:F; [| exact IH].
    cbn [filter_map]. cbn [snd] in Hv.
    rewrite (Hv r Hr), IH. cbn [bind]. now rewrite F.
Qed.

Lemma item_op_again :
  forall e r, item_op remove e = Ok r -> item_op remove (snd r) = Ok r.
Proof.
  induction e as [s | s | n | b | items IH | l IH | lhs op rhs _ _]
    using expr_induction; intros r H; try discriminate H.
  - cbn in H. now injection H as <-.
  - rewrite item_op_Map in H. apply bind_Ok in H as [items' [Hi H]].
    injection H as <-. cbn [snd]. rewrite item_op_Map.
    now rewrite (filter_map_again items IH items' Hi).
  - rewrite item_op_List in H. apply bind_Ok in H as [l' [Hl H]].
    injection H as <-. cbn [snd]. rewrite item_op_List.
    now rewrite (filter_list_again l IH l' Hl).
  - cbn in H. now injection H as <-.
Qed.

End ItemOp.

Section ItemOpFacts.
Import Soong BuildSystem.

(** X19.  When [item_op] raises: it returns for a value in which every list
    element and every map value it reaches is a map, a list, a string or an
    operator, and raises [TypeError] for every other value, that is as soon
    as an identifier, a number or a truth value stands in such a place. *)
Theorem item_op_type_error :
  forall remove e,
    (handled e = true -> exists r, item_op remove e = Ok r) /\
    (handled e = false -> item_op remove e = Raise TypeError).
Proof.
  intros remove e. pose proof (item_op_handled remove e) as H.
  destruct (handled e); split; intros E; try discriminate E; exact H.
Qed.

(** X20.  The strings [filter_list] keeps: when it returns, a string is an
    element of the list left exactly when it was an element before and,
    lowered, contains none of the names to remove. *)
Theorem filter_list_keeps_clean_strings :
  forall remove l l',
    filter_list remove l = Ok l' ->
    forall s,
      In (String s) l' <->
      In (String s) l /\
      forall i, In i remove -> contains i (lower s) = false.
Proof.
  intros remove l l' H s. rewrite (filter_list_strings remove l l' H s).
  unfold keeps. rewrite negb_true_iff.
  split; intros [I K]; (split; [exact I |]).
  - intros i Hi. destruct (contains i (lower s)) eqn:C; [| reflexivity].
    rewrite <- K. symmetry. apply existsb_exists. now exists i.
  - destruct (existsb _ remove) eqn:E; [| reflexivity].
    apply existsb_exists in E as [i [Hi C]]. now rewrite (K i Hi) in C.
Qed.

(** X21.  Removing the same names again changes nothing: when [item_op]
    returns, a second call on the value it left returns the same truth
    value and leaves the value as it is. *)
Theorem item_op_idempotent :
  forall remove e b e',
    item_op remove e = Ok (b, e') -> item_op remove e' = Ok (b, e').
Proof. intros remove e b e' H. exact (item_op_again remove e (b, e') H). Qed.

(** The static libraries of a test target, and the names of
    [remove_soong_tests]. *)
Definition quoted (s : string) : expr := String ([DQUOTE] ++ lit s ++ [DQUOTE]).
Definition test_names : list str :=
  [lit "libgtest"; lit "test-proto"; lit "starlarktest"].
Definition static_libs : list expr :=
  [quoted "libbase"; quoted "libgtest_main";
   Map [(lit "deps", MapValue (lit ":") (List [quoted "libGTest"; quoted "libz"]))];
   BinaryOperator (quoted "libgtest") (lit "+") (quoted "_prod")].
Definition static_libs_left : list expr :=
  [quoted "libbase";
   Map [(lit "deps", MapValue (lit ":") (List [quoted "libz"]))];
   BinaryOperator (quoted "libgtest") (lit "+") (quoted "_prod")].

Lemma item_op_type_error_witness :
  (exists r, item_op test_names (List static_libs) = Ok r) /\
  item_op test_names (List [quoted "a"; Ident (lit "b")]) = Raise TypeError.
Proof.
  split.
  - apply (item_op_type_error test_names (List static_libs)).
    vm_compute; reflexivity.
  - apply (item_op_type_error test_names (List [quoted "a"; Ident (lit "b")])).
    vm_compute; reflexivity.
Defined.

Lemma filter_list_keeps_clean_strings_witness :
  In (quoted "libbase") static_libs_left /\
  ~ In (quoted "libgtest_main") static_libs_left.
Proof.
  pose proof (filter_list_keeps_clean_strings test_names static_libs
                static_libs_left ltac:(vm_compute; reflexivity)) as H.
  split.
  - apply H. split; [now left |].
    intros i [<- | [<- | [<- | []]]]; vm_compute; reflexivity.
  - intros I. apply H in I as [_ K].
    specialize (K (lit "libgtest") ltac:(now left)). vm_compute in K.
    discriminate K.
Defined.

Lemma item_op_idempotent_witness :
  item_op test_names (List static_libs) = Ok (true, List static_libs_left) /\
  item_op test_names (List static_libs_left)
  = Ok (true, List static_libs_left).
Proof.
  split; [vm_compute; reflexivity |].
  apply (item_op_idempotent test_names (List static_libs)).
  vm_compute; reflexivity.
Defined.

End ItemOpFacts.

(** ** Blueprint parser: the merge operator *)

Section MergeOperator.
Import Soong.

(** The numbers a value holds, at any depth. *)
Fixpoint ints (e : expr) : list N :=
  match e with
  | Integer n => [n]
  | Map items =>
      flat_map (fun kv => match snd kv with MapValue _ v => ints v end) items
  | List l => flat_map ints l
  | BinaryOperator lhs _ rhs => ints lhs ++ ints rhs
  | _ => []
  end.

Definition pair_ints (kv : str * map_value) : list N :=
  match snd kv with MapValue _ v => ints v end.
Definition pairs_ints (items : list (str * map_value)) : list N :=
  flat_map pair_ints items.
Definition rule_ints (r : rule) : list N :=
  match r with
  | Assignment _ e | BinaryOperatorAssignment _ _ e => ints e
  | Scope _ m => pairs_ints m
  end.
Definition ast_ints (a : Ast) : list N := flat_map rule_ints a.

(** The numbers written in the input: the values of its [INTEGER]
    tokens. *)
Definition literals (ts : list token) : list N :=
  flat_map (fun t => match t with
                     | INTEGER v => [N_of_digits v]
                     | _ => []
                     end) ts.

(** A parse result that holds no number but those written in [ts], and
    leaves tokens of [ts]. *)
Definition from_tokens {A} (f : A -> list N) (ts : list token)
           (p : parsed A) : Prop :=
  forall x rest, p = Ok (x, rest) ->
                 incl (f x) (literals ts) /\ incl rest ts.

Lemma literals_incl (a b : list token) :
  incl a b -> incl (literals a) (literals b).
Proof.
  intros H n Hn. unfold literals in *. apply in_flat_map in Hn as [t [Ht Hn]].
  apply in_flat_map. exists t. split; [now apply H | exact Hn].
Qed.

Lemma from_tokens_mono {A} (f : A -> list N) (ts ts0 : list token)
      (p : parsed A) :
  incl ts ts0 -> from_tokens f ts p -> from_tokens f ts0 p.
Proof.
  intros I H x rest E. destruct (H x rest E) as [H1 H2]. split.
  - eapply incl_tran; [exact H1 | now apply literals_incl].
  - eapply incl_tran; eassumption.
Qed.

Lemma incl_tl2 {A} (a b : A) (l : list A) : incl l (a :: b :: l).
Proof. intros x H. now do 2 right. Qed.

Lemma incl_tl3 {A} (a b c : A) (l : list A) : incl l (a :: b :: c :: l).
Proof. intros x H. now do 3 right. Qed.

Lemma dict_set_ints (d : list (str * map_value)) (k : str) (v : map_value) :
  incl (pairs_ints (dict_set d k v)) (pairs_ints d ++ pair_ints (k, v)).
Proof.
  induction d as [|[k' v'] d IH]; cbn [dict_set].
  - cbn. rewrite app_nil_r. apply incl_refl.
  - destruct (str_eqb k' k).
    + unfold pairs_ints. cbn [flat_map].
      intros n Hn. apply in_app_or in Hn as [Hn | Hn].
      * apply in_or_app. right. exact Hn.
      * apply in_or_app. left. apply in_or_app. now right.
    + unfold pairs_ints in *. cbn [flat_map].
      intros n Hn. apply in_app_or in Hn as [Hn | Hn].
      * apply in_or_app. left. apply in_or_app. now left.
      * apply IH in Hn. apply in_app_or in Hn as [Hn | Hn].
        -- apply in_or_app. left. apply in_or_app. now right.
        -- apply in_or_app. now right.
Qed.

Lemma dict_of_pairs_ints (ps : list (str * map_value)) :
  incl (pairs_ints (dict_of_pairs ps)) (pairs_ints ps).
Proof.
  unfold dict_of_pairs.
  enough (G : forall acc,
             incl (pairs_ints
                     (fold_left (fun d kv => dict_set d (fst kv) (snd kv))
                                ps acc))
                  (pairs_ints acc ++ pairs_ints ps)).
  { intros n Hn. apply G in Hn. exact Hn. }
  induction ps as [|[k v] ps IH]; intros acc; cbn [fold_left].
  - rewrite app_nil_r. apply incl_refl.
  - intros n Hn. apply IH in Hn. cbn [fst snd] in Hn.
    apply in_app_or in Hn as [Hn | Hn].
    + apply dict_set_ints in Hn. apply in_app_or in Hn as [Hn | Hn].
      * apply in_or_app. now left.
      * apply in_or_app. right. unfold pairs_ints. cbn [flat_map].
        apply in_or_app. now left.
    + apply in_or_app. right. unfold pairs_ints. cbn [flat_map].
      apply in_or_app. now right.
Qed.

Lemma pairs_ints_app (a b : list (str * map_value)) :
  pairs_ints (a ++ b) = pairs_ints a ++ pairs_ints b.
Proof. apply flat_map_app. Qed.

Section GrammarFacts.
Variable expr_rec : list token -> parsed expr.
Hypothesis Hrec : forall ts, from_tokens ints ts (expr_rec ts).

Lemma parse_pair_from (ts : list token) :
  from_tokens pair_ints ts (parse_pair expr_rec ts).
Proof.
  intros x rest H. unfold parse_pair in H.
  destruct ts as [|[| |k| | | | | | | | |] [|t ts]]; try discriminate H.
  destruct t; try discriminate H;
    apply bind_Ok in H as [[e r] [He H]]; injection H as <- <-;
    destruct (Hrec ts e r He) as [H1 H2]; cbn [fst snd];
    (split;
     [ unfold pair_ints; cbn [snd];
       eapply incl_tran; [exact H1 | apply literals_incl, incl_tl2]
     | eapply incl_tran; [exact H2 | apply incl_tl2] ]).
Qed.

Lemma pairs_loop_from :
  forall n ts0 acc ts,
    incl ts ts0 -> incl (pairs_ints acc) (literals ts0) ->
    forall x rest, pairs_loop expr_rec n acc ts = Ok (x, rest) ->
                   incl (pairs_ints x) (literals ts0) /\ incl rest ts0.
Proof.
  induction n as [|n IH]; intros ts0 acc ts I A x rest H.
  - destruct ts as [|t ts]; [discriminate H |].
    destruct t; try discriminate H.
    + injection H as <- <-. split; [exact A |].
      eapply incl_tran; [apply incl_tl | exact I]. apply incl_refl.
    + destruct ts as [|t ts]; [discriminate H |].
      destruct t; try discriminate H.
      injection H as <- <-. split; [exact A |].
      eapply incl_tran; [apply incl_tl2 | exact I].
  - destruct ts as [|t ts]; [discriminate H |].
    destruct t; try discriminate H.
    + injection H as <- <-. split; [exact A |].
      eapply incl_tran; [apply incl_tl | exact I]. apply incl_refl.
    + assert (Its : incl ts ts0).
      { eapply incl_tran; [apply incl_tl | exact I]. apply incl_refl. }
      assert (G : forall r, parse_pair expr_rec ts = Ok r ->
                            pairs_loop expr_rec n (acc ++ [fst r]) (snd r)
                            = Ok (x, rest) ->
                            incl (pairs_ints x) (literals ts0) /\
                            incl rest ts0).
      { intros [kv r] Hp Hl. cbn [fst snd] in Hl.
        destruct (from_tokens_mono _ _ _ _ Its (parse_pair_from ts) kv r Hp)
          as [P1 P2].
        apply (IH ts0 (acc ++ [kv]) r P2); [| exact Hl].
        rewrite pairs_ints_app. apply incl_app; [exact A |].
        unfold pairs_ints. cbn [flat_map]. now rewrite app_nil_r. }
      cbn [pairs_loop] in H.
      destruct ts as [|t ts'].
      * apply bind_Ok in H as [r [Hp Hl]]. now apply (G r).
      * destruct t;
          try (apply bind_Ok in H as [r [Hp Hl]]; now apply (G r)).
        injection H as <- <-. split; [exact A |].
        eapply incl_tran; [apply incl_tl2 | exact I].
Qed.

Lemma parse_map_from (ts : list token) :
  from_tokens pairs_ints ts (parse_map expr_rec ts).
Proof.
  intros x rest H. unfold parse_map in H.
  assert (G : (r <- parse_pair expr_rec ts ;;
               ps <- pairs_loop expr_rec (length ts) [fst r] (snd r) ;;
               Ok (dict_of_pairs (fst ps), snd ps)) = Ok (x, rest) ->
              incl (pairs_ints x) (literals ts) /\ incl rest ts).
  { intros E. apply bind_Ok in E as [[kv r] [Hp E]].
    apply bind_Ok in E as [[ps r'] [Hl E]]. injection E as <- <-.
    cbn [fst snd] in *.
    destruct (parse_pair_from ts kv r Hp) as [P1 P2].
    assert (A : incl (pairs_ints [kv]) (literals ts)).
    { unfold pairs_ints. cbn [flat_map]. now rewrite app_nil_r. }
    destruct (pairs_loop_from (length ts) ts [kv] r P2 A ps r' Hl)
      as [L1 L2].
    split; [| exact L2].
    eapply incl_tran; [apply dict_of_pairs_ints | exact L1]. }
  destruct ts as [|t ts']; [now apply G |].
  destruct t; try (now apply G).
  injection H as <- <-. split; [intros n [] | apply incl_tl, incl_refl].
Qed.

Lemma parse_item_operand_from (ts : list token) :
  from_tokens ints ts (parse_item_operand expr_rec ts).
Proof.
  intros x rest H. unfold parse_item_operand in H.
  destruct ts as [|t ts]; [discriminate H |].
  destruct t; try discriminate H.
  - injection H as <- <-. split; [intros n [] | apply incl_tl, incl_refl].
  - injection H as <- <-. split; [intros n [] | apply incl_tl, incl_refl].
  - apply bind_Ok in H as [[m r] [Hm H]]. injection H as <- <-.
    destruct (parse_map_from ts m r Hm) as [M1 M2]. cbn [fst snd]. split.
    + eapply incl_tran; [exact M1 | apply literals_incl, incl_tl, incl_refl].
    + eapply incl_tran; [exact M2 | apply incl_tl, incl_refl].
Qed.

Lemma item_tail_from :
  forall n ts0 lhs ts,
    incl ts ts0 -> incl (ints lhs) (literals ts0) ->
    forall x rest, item_tail expr_rec n lhs ts = Ok (x, rest) ->
                   incl (ints x) (literals ts0) /\ incl rest ts0.
Proof.
  induction n as [|n IH]; intros ts0 lhs ts I A x rest H.
  - destruct ts as [|t ts]; [injection H as <- <-; now split |].
    destruct t; try (injection H as <- <-; now split). discriminate H.
  - destruct ts as [|t ts]; [injection H as <- <-; now split |].
    destruct t; try (injection H as <- <-; now split).
    cbn [item_tail] in H. apply bind_Ok in H as [[rhs r] [Ho H]].
    cbn [fst snd] in H.
    assert (Its : incl ts ts0).
    { eapply incl_tran; [apply incl_tl, incl_refl | exact I]. }
    destruct (from_tokens_mono _ _ _ _ Its (parse_item_operand_from ts)
                rhs r Ho) as [O1 O2].
    apply (IH ts0 (BinaryOperator lhs (lit "+") rhs) r O2); [| exact H].
    cbn [ints]. now apply incl_app.
Qed.

Lemma parse_item_from (ts : list token) :
  from_tokens ints ts (parse_item expr_rec ts).
Proof.
  intros x rest H. unfold parse_item in H.
  apply bind_Ok in H as [[lhs r] [Ho H]]. cbn [fst snd] in H.
  destruct (parse_item_operand_from ts lhs r Ho) as [O1 O2].
  now apply (item_tail_from (length ts) ts lhs r O2 O1).
Qed.

Lemma sequence_loop_from :
  forall n ts0 acc ts,
    incl ts ts0 -> incl (flat_map ints acc) (literals ts0) ->
    forall x rest, sequence_loop expr_rec n acc ts = Ok (x, rest) ->
                   incl (flat_map ints x) (literals ts0) /\ incl rest ts0.
Proof.
  induction n as [|n IH]; intros ts0 acc ts I A x rest H.
  - destruct ts as [|t ts]; [discriminate H |].
    destruct t; try discriminate H.
    + injection H as <- <-. split; [exact A |].
      eapply incl_tran; [apply incl_tl, incl_refl | exact I].
    + destruct ts as [|t ts]; [discriminate H |].
      destruct t; try discriminate H.
      injection H as <- <-. split; [exact A |].
      eapply incl_tran; [apply incl_tl2 | exact I].
  - destruct ts as [|t ts]; [discriminate H |].
    destruct t; try discriminate H.
    + injection H as <- <-. split; [exact A |].
      eapply incl_tran; [apply incl_tl, incl_refl | exact I].
    + assert (Its : incl ts ts0).
      { eapply incl_tran; [apply incl_tl, incl_refl | exact I]. }
      assert (G : forall r, parse_item expr_rec ts = Ok r ->
                            sequence_loop expr_rec n (acc ++ [fst r]) (snd r)
                            = Ok (x, rest) ->
                            incl (flat_map ints x) (literals ts0) /\
                            incl rest ts0).
      { intros [e r] Hp Hl. cbn [fst snd] in Hl.
        destruct (from_tokens_mono _ _ _ _ Its (parse_item_from ts) e r Hp)
          as [P1 P2].
        apply (IH ts0 (acc ++ [e]) r P2); [| exact Hl].
        rewrite flat_map_app. apply incl_app; [exact A |].
        cbn [flat_map]. now rewrite app_nil_r. }
      cbn [sequence_loop] in H.
      destruct ts as [|t ts'].
      * apply bind_Ok in H as [r [Hp Hl]]. now apply (G r).
      * destruct t;
          try (apply bind_Ok in H as [r [Hp Hl]]; now apply (G r)).
        injection H as <- <-. split; [exact A |].
        eapply incl_tran; [apply incl_tl2 | exact I].
Qed.

Lemma parse_list_from (ts : list token) :
  from_tokens (flat_map ints) ts (parse_list expr_rec ts).
Proof.
  intros x rest H. unfold parse_list in H.
  assert (G : (r <- parse_item expr_rec ts ;;
               sequence_loop expr_rec (length ts) [fst r] (snd r))
              = Ok (x, rest) ->
              incl (flat_map ints x) (literals ts) /\ incl rest ts).
  { intros E. apply bind_Ok in E as [[e r] [Hp E]]. cbn [fst snd] in E.
    destruct (parse_item_from ts e r Hp) as [P1 P2].
    apply (sequence_loop_from (length ts) ts [e] r P2); [| exact E].
    cbn [flat_map]. now rewrite app_nil_r. }
  destruct ts as [|t ts']; [now apply G |].
  destruct t; try (now apply G).
  injection H as <- <-. split; [intros n [] | apply incl_tl, incl_refl].
Qed.

Lemma parse_operand_from (ts : list token) :
  from_tokens ints ts (parse_operand expr_rec ts).
Proof.
  intros x rest H. unfold parse_operand in H.
  destruct ts as [|t ts]; [discriminate H |].
  destruct t; try discriminate H.
  - injection H as <- <-. split; [intros n [] | apply incl_tl, incl_refl].
  - injection H as <- <-. split; [| apply incl_tl, incl_refl].
    intros n [<- | []]. unfold literals. cbn [flat_map]. now left.
  - injection H as <- <-. split; [intros n [] | apply incl_tl, incl_refl].
  - injection H as <- <-. split; [intros n [] | apply incl_tl, incl_refl].
  - apply bind_Ok in H as [[l r] [Hl H]]. injection H as <- <-.
    destruct (parse_list_from ts l r Hl) as [M1 M2]. cbn [fst snd]. split.
    + eapply incl_tran; [exact M1 | apply literals_incl, incl_tl, incl_refl].
    + eapply incl_tran; [exact M2 | apply incl_tl, incl_refl].
  - apply bind_Ok in H as [[m r] [Hm H]]. injection H as <- <-.
    destruct (parse_map_from ts m r Hm) as [M1 M2]. cbn [fst snd]. split.
    + eapply incl_tran; [exact M1 | apply literals_incl, incl_tl, incl_refl].
    + eapply incl_tran; [exact M2 | apply incl_tl, incl_refl].
Qed.

Lemma expr_tail_from :
  forall n ts0 lhs ts,
    incl ts ts0 -> incl (ints lhs) (literals ts0) ->
    forall x rest, expr_tail expr_rec n lhs ts = Ok (x, rest) ->
                   incl (ints x) (literals ts0) /\ incl rest ts0.
Proof.
  induction n as [|n IH]; intros ts0 lhs ts I A x rest H.
  - destruct ts as [|t ts]; [injection H as <- <-; now split |].
    destruct t; try (injection H as <- <-; now split). discriminate H.
  - destruct ts as [|t ts]; [injection H as <- <-; now split |].
    destruct t; try (injection H as <- <-; now split).
    cbn [expr_tail] in H. apply bind_Ok in H as [[rhs r] [Ho H]].
    cbn [fst snd] in H.
    assert (Its : incl ts ts0).
    { eapply incl_tran; [apply incl_tl, incl_refl | exact I]. }
    destruct (from_tokens_mono _ _ _ _ Its (parse_operand_from ts)
                rhs r Ho) as [O1 O2].
    apply (IH ts0 (BinaryOperator lhs (lit "+") rhs) r O2); [| exact H].
    cbn [ints]. now apply incl_app.
Qed.

Lemma parse_expr_body_from (ts : list token) :
  from_tokens ints ts (parse_expr_body expr_rec ts).
Proof.
  intros x rest H. unfold parse_expr_body in H.
  apply bind_Ok in H as [[lhs r] [Ho H]]. cbn [fst snd] in H.
  destruct (parse_operand_from ts lhs r Ho) as [O1 O2].
  now apply (expr_tail_from (length ts) ts lhs r O2 O1).
Qed.

End GrammarFacts.

Lemma parse_expr_from :
  forall fuel ts, from_tokens ints ts (parse_expr fuel ts).
Proof.
  induction fuel as [|fuel IH]; intros ts; [intros x rest H; discriminate H |].
  cbn [parse_expr]. now apply parse_expr_body_from.
Qed.

Lemma parse_rule_from (ts : list token) :
  from_tokens rule_ints ts (parse_rule ts).
Proof.
  intros x rest H. unfold parse_rule in H.
  destruct ts as [|[| |name| | | | | | | | |] [|t ts]]; try discriminate H.
  destruct t; try discriminate H.
  - apply bind_Ok in H as [[m r] [Hm H]]. injection H as <- <-.
    destruct (parse_map_from _ (parse_expr_from _) ts m r Hm) as [M1 M2].
    cbn [fst snd rule_ints]. split.
    + eapply incl_tran; [exact M1 | apply literals_incl, incl_tl2].
    + eapply incl_tran; [exact M2 | apply incl_tl2].
  - apply bind_Ok in H as [[e r] [He H]]. injection H as <- <-.
    destruct (parse_expr_from _ ts e r He) as [M1 M2].
    cbn [fst snd rule_ints]. split.
    + eapply incl_tran; [exact M1 | apply literals_incl, incl_tl2].
    + eapply incl_tran; [exact M2 | apply incl_tl2].
  - destruct ts as [|t ts]; [discriminate H |].
    destruct t; try discriminate H.
    apply bind_Ok in H as [[e r] [He H]]. injection H as <- <-.
    destruct (parse_expr_from _ ts e r He) as [M1 M2].
    cbn [fst snd rule_ints]. split.
    + eapply incl_tran; [exact M1 | apply literals_incl, incl_tl3].
    + eapply incl_tran; [exact M2 | apply incl_tl3].
Qed.

Lemma parse_rules_from :
  forall n ts0 ts a,
    incl ts ts0 -> parse_rules n ts = Ok a ->
    incl (ast_ints a) (literals ts0).
Proof.
  induction n as [|n IH]; intros ts0 ts a I H.
  - destruct ts; [| discriminate H]. injection H as <-. intros x [].
  - destruct ts as [|t ts]; [injection H as <-; intros x [] |].
    cbn [parse_rules] in H. apply bind_Ok in H as [[r rest] [Hr H]].
    apply bind_Ok in H as [rs [Hrs H]]. injection H as <-.
    cbn [fst snd] in *.
    destruct (from_tokens_mono _ _ _ _ I (parse_rule_from (t :: ts)) r rest Hr)
      as [R1 R2].
    unfold ast_ints. cbn [flat_map]. apply incl_app; [exact R1 |].
    now apply (IH ts0 rest rs R2).
Qed.

(** C7.  [number = 4 + x] parses to an assignment of a [BinaryOperator]
    holding the literal [4], the operator [+] and the identifier [x], and
    [total = 4 + 1] to one holding the literals [4] and [1].  On every
    parse: two integer literals around a [+] stay a
    [BinaryOperator] of the two literals; whenever an operand is followed
    by [+] and a second operand, in an expression or in a list, the parse
    goes on with the [BinaryOperator] of the two operands as its left
    operand; and every number in a parsed tree is the value of an integer
    literal of the input, so none is the result of an addition. *)
Theorem C7_merge_operator_representation :
  loads (lit "number = 4 + x")
  = Ok [Assignment (lit "number")
          (BinaryOperator (Integer 4) (lit "+") (Ident (lit "x")))] /\
  loads (lit "total = 4 + 1")
  = Ok [Assignment (lit "total")
          (BinaryOperator (Integer 4) (lit "+") (Integer 1))] /\
  (forall name a b,
      parse [IDENT name; EQUALS; INTEGER a; PLUS; INTEGER b]
      = Ok [Assignment name
              (BinaryOperator (Integer (N_of_digits a)) (lit "+")
                              (Integer (N_of_digits b)))]) /\
  (forall fuel ts lhs ts1 rhs ts2,
      parse_operand (parse_expr fuel) ts = Ok (lhs, PLUS :: ts1) ->
      parse_operand (parse_expr fuel) ts1 = Ok (rhs, ts2) ->
      parse_expr (S fuel) ts
      = expr_tail (parse_expr fuel) (length ts - 1)
                  (BinaryOperator lhs (lit "+") rhs) ts2) /\
  (forall fuel ts lhs ts1 rhs ts2,
      parse_item_operand (parse_expr fuel) ts = Ok (lhs, PLUS :: ts1) ->
      parse_item_operand (parse_expr fuel) ts1 = Ok (rhs, ts2) ->
      parse_item (parse_expr fuel) ts
      = item_tail (parse_expr fuel) (length ts - 1)
                  (BinaryOperator lhs (lit "+") rhs) ts2) /\
  (forall contents a,
      loads contents = Ok a ->
      exists ts, tokenize contents = Ok ts /\
                 incl (ast_ints a) (literals ts)).
Proof.
  split; [vm_compute; reflexivity |].
  split; [vm_compute; reflexivity |].
  split; [intros name a b; reflexivity |].
  split; [| split].
  - intros fuel ts lhs ts1 rhs ts2 H1 H2.
    cbn [parse_expr]. unfold parse_expr_body. rewrite H1. cbn [bind fst snd].
    destruct ts as [|t ts]; [discriminate H1 |].
    cbn [length Nat.sub expr_tail]. rewrite Nat.sub_0_r, H2. reflexivity.
  - intros fuel ts lhs ts1 rhs ts2 H1 H2.
    unfold parse_item. rewrite H1. cbn [bind fst snd].
    destruct ts as [|t ts]; [discriminate H1 |].
    cbn [length Nat.sub item_tail]. rewrite Nat.sub_0_r, H2. reflexivity.
  - intros contents a H. unfold loads in H.
    apply bind_Ok in H as [ts [Ht Hp]]. exists ts. split; [exact Ht |].
    apply (parse_rules_from (length ts) ts ts a (incl_refl ts) Hp).
Qed.

Lemma C7_witness :
  exists ts,
    tokenize (lit "total = 4 + 1") = Ok ts /\
    incl (ast_ints [Assignment (lit "total")
                      (BinaryOperator (Integer 4) (lit "+") (Integer 1))])
         (literals ts).
Proof.
  apply (proj2 (proj2 (proj2 (proj2 (proj2
           C7_merge_operator_representation))))).
  vm_compute. reflexivity.
Defined.

End MergeOperator.

(** ** Makefile: the round trip *)

Section RoundTrip.
Import Make.











End RoundTrip.
